(** * Connections view of clash-dashboard: traffic codec, sort engine, feed

    A shallow embedding of [src/containers/Connections/index.tsx]:
    [parseTraffic], [formatTraffic], [formatSpeed], the sort state handler
    [handleSort], the memoised row view [data] and the stream handler
    [handleConnection], together with the JavaScript built-ins they call.
    The store behind [useConnections] is not part of that file; it is
    modelled from section 4.1 of the specification. *)

From Stdlib Require Import ZArith QArith Qabs Qround Lia Ascii String List.
From Stdlib Require Import Sorting.Sorted Sorting.Permutation.
From stdpp Require Import gmap strings list fin_maps.

Local Open Scope string_scope.
Local Open Scope Z_scope.

(** ** JavaScript values used by the view *)

(** A JavaScript number as the view uses it: byte counts, comparator
    results and decoded magnitudes are integers (exact in a double below
    2^53 in magnitude), or [NaN] when [parseInt] finds no digit. *)
Inductive number : Type :=
| NaN
| Num (z : Z).

(** What a call may raise: dereferencing [undefined] is a [TypeError]. *)
Inductive exn : Type :=
| TypeError.

(** The outcome of evaluating an expression that can throw. *)
Inductive completion (A : Type) : Type :=
| Return (a : A)
| Throw (e : exn).

Arguments Return {A} a.
Arguments Throw {A} e.

#[global] Instance completion_ret : MRet completion := fun A a => Return a.

#[global] Instance completion_bind : MBind completion := fun A B k c =>
  match c with
  | Return a => k a
  | Throw e => Throw e
  end.

(** [a - b] on numbers: [NaN] is absorbing. *)
Definition number_sub (a b : number) : number :=
  match a, b with
  | Num x, Num y => Num (x - y)
  | _, _ => NaN
  end.

(** [a *= 1024]. *)
Definition number_mul1024 (a : number) : number :=
  match a with
  | Num x => Num (x * 1024)
  | NaN => NaN
  end.

(** The comparator result as [Array.prototype.sort] reads it: a [NaN]
    result counts as [+0]. *)
Definition sortKey (v : number) : Z :=
  match v with
  | Num z => z
  | NaN => 0
  end.

(** ** Strings *)

(** [s.split(sep)] for a one-character separator: every occurrence cuts, so
    the result is never empty and adjacent separators give empty pieces. *)
Fixpoint split (sep : ascii) (s : string) : list string :=
  match s with
  | EmptyString => [EmptyString]
  | String c rest =>
      if Ascii.eqb c sep then EmptyString :: split sep rest
      else match split sep rest with
           | piece :: pieces => String c piece :: pieces
           | [] => [String c EmptyString]
           end
  end.

(** Upper-casing of one code unit; only a-z change (no other character
    upper-cases into the letters of a traffic unit). *)
Definition upperChar (c : ascii) : ascii :=
  let n := nat_of_ascii c in
  if ((97 <=? n) && (n <=? 122))%nat then ascii_of_nat (n - 32) else c.

Fixpoint toUpperCase (s : string) : string :=
  match s with
  | EmptyString => EmptyString
  | String c rest => String (upperChar c) (toUpperCase rest)
  end.

(** [arr.indexOf(x)]: position of the first element equal to [x], else -1. *)
Fixpoint indexOf (arr : list string) (x : string) : Z :=
  match arr with
  | [] => -1
  | y :: rest =>
      if String.eqb y x then 0
      else let i := indexOf rest x in if i <? 0 then -1 else i + 1
  end.

(** [arr.join(sep)]. *)
Fixpoint join (sep : string) (arr : list string) : string :=
  match arr with
  | [] => ""
  | [x] => x
  | x :: rest => x ++ sep ++ join sep rest
  end.

Definition isDigit (c : ascii) : bool :=
  let n := nat_of_ascii c in ((48 <=? n) && (n <=? 57))%nat.

Definition digitValue (c : ascii) : Z := Z.of_nat (nat_of_ascii c) - 48.

Definition digitChar (d : Z) : ascii := ascii_of_nat (48 + Z.to_nat d).

(** White space [parseInt] skips (the one-byte code points). *)
Definition isWhiteSpace (c : ascii) : bool :=
  let n := nat_of_ascii c in (((9 <=? n) && (n <=? 13)) || (n =? 32))%nat.

Fixpoint trimStart (s : string) : string :=
  match s with
  | String c rest => if isWhiteSpace c then trimStart rest else s
  | EmptyString => EmptyString
  end.

(** The digits at the front of [s], folded into [acc]; [None] while no
    digit has been read. *)
Fixpoint readDigits (s : string) (acc : option Z) : option Z :=
  match s with
  | String c rest =>
      if isDigit c
      then readDigits rest (Some (match acc with
                                  | Some v => v * 10 + digitValue c
                                  | None => digitValue c
                                  end))
      else acc
  | EmptyString => acc
  end.

(** [parseInt(s, 10)]: leading white space, an optional sign, then the
    longest run of decimal digits; [NaN] when that run is empty. Whatever
    follows the digits (a decimal point included) is ignored. The value
    is the one JavaScript returns while the digits denote an integer below
    2^53 in magnitude (beyond that JavaScript rounds to a double), and the
    white space skipped is the one-byte kind (not U+00A0, U+FEFF and the
    other multi-byte spaces). *)
Definition parseInt (s : string) : number :=
  match trimStart s with
  | String "-" rest =>
      match readDigits rest None with Some v => Num (- v) | None => NaN end
  | String "+" rest =>
      match readDigits rest None with Some v => Num v | None => NaN end
  | t =>
      match readDigits t None with Some v => Num v | None => NaN end
  end.

(** Decimal digits of a non-negative integer, most significant first. *)
Fixpoint digitsAux (fuel : nat) (n : Z) (acc : string) : string :=
  match fuel with
  | O => acc
  | S fuel' =>
      let acc' := String (digitChar (n mod 10)) acc in
      if n <? 10 then acc' else digitsAux fuel' (n / 10) acc'
  end.

Definition decimal (n : Z) : string :=
  digitsAux (S (Z.to_nat (Z.log2 n))) n "".

(** [String(n)] for an integer below 2^53 in magnitude, where every
    integer is a double and JavaScript prints its plain digits (beyond
    that it prints the shortest digits that round-trip, and from 10^21 on
    exponent notation). *)
Definition integerToString (n : Z) : string :=
  if n <? 0 then "-" ++ decimal (- n) else decimal n.

(** [~~x]: truncation toward zero, then wrap-around to a signed 32-bit
    integer ([ToInt32]). *)
Definition ToInt32 (z : Z) : Z :=
  let m := z mod 2 ^ 32 in
  if m <? 2 ^ 31 then m else m - 2 ^ 32.

Definition truncate (q : Q) : Z := Z.quot (Qnum q) (Zpos (Qden q)).

Definition doubleTilde (q : Q) : Z := ToInt32 (truncate q).

(** [x.toFixed(2)]: the integer [n] with [n / 100] nearest to [x] (the
    larger one on a tie), printed with two decimals; the sign is split
    off first. *)
Definition toFixed2 (x : Q) : string :=
  let neg := Qnum x <? 0 in
  let a := Qabs x in
  let n := Qfloor (a * 100 + (1 # 2))%Q in
  (if neg then "-" else "")
    ++ decimal (n / 100) ++ "."
    ++ String (digitChar (n / 10 mod 10)) (String (digitChar (n mod 10)) "").

(** ** TrafficCodec *)

Definition trafficUnit : list string := ["B"; "KB"; "MB"; "GB"; "TB"].

(** [`${u}`] for an array read: a missing element prints as undefined. *)
Definition unitText (u : option string) : string :=
  match u with
  | Some s => s
  | None => "undefined"
  end.

(** The [while (idx-- > 0) bit *= 1024] loop of [parseTraffic]. *)
Definition scaleUp (idx : Z) (bit : number) : number :=
  Nat.iter (Z.to_nat idx) number_mul1024 bit.

(** [parseTraffic]: [traffic.split(' ')] destructured into [num] and
    [unit]; with a single piece [unit] is [undefined] and
    [unit.toUpperCase()] throws. *)
Definition parseTraffic (traffic : string) : completion number :=
  match split " " traffic with
  | num :: unit :: _ =>
      let idx := indexOf trafficUnit (toUpperCase unit) in
      let bit := parseInt num in
      Return (scaleUp idx bit)
  | _ => Throw TypeError
  end.

(** The loop of [formatTraffic]. [budget] is [trafficUnit.length - idx], so
    [budget = 0] is the failing test [idx < trafficUnit.length]; dividing a
    double by 1024 is exact, hence [num] is a rational. *)
Fixpoint formatLoop (budget : nat) (num : Q) (idx : nat) : Q * nat :=
  match budget with
  | O => (num, idx)
  | S budget' =>
      if doubleTilde (num / 1024)%Q =? 0 then (num, idx)
      else formatLoop budget' (num / 1024)%Q (S idx)
  end.

(** [formatTraffic] on an integer byte count. *)
Definition formatTraffic (num : Z) : string :=
  let '(scaled, idx) := formatLoop (length trafficUnit) (inject_Z num) 0 in
  (if (idx =? 0)%nat then integerToString num else toFixed2 scaled)
    ++ " " ++ unitText (trafficUnit !! idx).

(** The unit index the specification describes: the number of divisions
    by 1024 that keep the value at 1 or above, capped at the last unit. *)
Definition magnitude (num : Z) : nat :=
  if num <? 1024 then 0
  else if num <? 1024 ^ 2 then 1
  else if num <? 1024 ^ 3 then 2
  else if num <? 1024 ^ 4 then 3
  else 4.

(** 1024 to the power [k], the size of unit [k] in bytes. *)
Definition unitSize (k : nat) : positive :=
  Nat.iter k (fun d => d * 1024)%positive 1%positive.

(** The hundredths [toFixed(2)] rounds [x / d] to. *)
Definition hundredths (x : Z) (d : positive) : Z :=
  (x * 100 * 2 + Zpos d) / (Zpos d * 2).

(** ** SpeedFormatter *)

(** [formatSpeed]: the [switch (true)] takes the first case that holds. *)
Definition formatSpeed (upload download : Z) : string :=
  if (upload =? 0) && (download =? 0) then "-"
  else if negb (upload =? 0) && negb (download =? 0)
       then "↑ " ++ formatTraffic upload ++ "/s ↓ " ++ formatTraffic download ++ "/s"
  else if negb (upload =? 0) then "↑ " ++ formatTraffic upload ++ "/s"
  else "↓ " ++ formatTraffic download ++ "/s".

(** ** Sort state *)

(** The [Columns] enum ([Type'] is the column named type). *)
Inductive Columns : Type :=
| Host | Network | Type' | Chains | Rule | Speed | Upload | Download | Time.

#[global] Instance Columns_eq_dec : EqDecision Columns.
Proof. solve_decision. Defined.

(** [TableColumn = Columns | '']: [None] is the empty string. *)
Definition TableColumn : Type := option Columns.

Record TableSort : Type := mkSort {
  column : TableColumn;
  asc : bool
}.

(** The initial state of [useObject<TableSort>]. *)
Definition initialSort : TableSort := {| column := None; asc := true |}.

(** [setSort(key, value)] on one key leaves the other key as it is;
    [setSort({ ... })] with both keys replaces both. *)
Definition setSort_asc (v : bool) (sort : TableSort) : TableSort :=
  {| column := column sort; asc := v |}.

Definition setSort_column (c : TableColumn) (sort : TableSort) : TableSort :=
  {| column := c; asc := asc sort |}.

Definition handleSort (c : TableColumn) (sort : TableSort) : TableSort :=
  if decide (c = column sort) then
    if asc sort then setSort_asc false sort
    else {| column := None; asc := true |}
  else setSort_column c sort.

Definition sortableColumns : list TableColumn :=
  [Some Host; Some Network; Some Type'; Some Rule; Some Upload; Some Download].

(** The header's click handler: [handleSort] for a sortable column, [noop]
    otherwise. *)
Definition handleClick (id : TableColumn) (sort : TableSort) : TableSort :=
  if decide (id ∈ sortableColumns) then handleSort id sort else sort.

(** ** Connections and rows *)

Module Metadata.
Record t : Type := mk {
  host : string;
  destinationIP : string;
  destinationPort : string;
  type : string;
  network : string
}.
End Metadata.

(** The rate pair the store keeps under [speed]. *)
Module Rate.
Record t : Type := mk {
  upload : Z;
  download : Z
}.
End Rate.

(** A connection as [useConnections] hands it to the view. [start] holds
    the epoch milliseconds [new Date(c.start).getTime()] evaluates to, and
    [completed] is a boolean, as in the data model of the specification. *)
Module Connection.
Record t : Type := mk {
  id : string;
  metadata : Metadata.t;
  chains : list string;
  rule : string;
  rulePayload : string;
  start : Z;
  upload : Z;
  download : Z;
  speed : Rate.t;
  completed : bool
}.
End Connection.

(** One element of the array [data] yields. *)
Module TableRow.
Record t : Type := mk {
  id : string;
  host : string;
  chains : string;
  rule : string;
  time : string;
  upload : string;
  download : string;
  type : string;
  network : string;
  speed : string;
  completed : bool
}.

(** [row[column]]. *)
Definition get (c : Columns) (r : t) : string :=
  match c with
  | Host => host r
  | Network => network r
  | Type' => type r
  | Chains => chains r
  | Rule => rule r
  | Speed => speed r
  | Upload => upload r
  | Download => download r
  | Time => time r
  end.
End TableRow.

(** What the component takes from other modules and from the runtime:
    the locale's string collation, [fromNow] of [@lib/date] at the current
    language, and the constant [RuleType.RuleSet] of [@models]. *)
Record Imports : Type := {
  localeCompare : string -> string -> Z;
  fromNow : Z -> string;
  RuleSet : string
}.

(** ** Array.prototype.sort *)

(** A stable sort driven by the sign of [cmp a b]: an element is placed
    before the first one it does not compare greater than. The comparator
    may throw, which aborts the sort. *)
Fixpoint insertBy {A : Type} (cmp : A -> A -> completion number)
    (x : A) (sorted : list A) : completion (list A) :=
  match sorted with
  | [] => Return [x]
  | y :: rest =>
      v ← cmp x y;
      if 0 <? sortKey v
      then (rest' ← insertBy cmp x rest; Return (y :: rest'))
      else Return (x :: y :: rest)
  end.

Fixpoint Array_sort {A : Type} (cmp : A -> A -> completion number)
    (arr : list A) : completion (list A) :=
  match arr with
  | [] => Return []
  | x :: rest => sorted ← Array_sort cmp rest; insertBy cmp x sorted
  end.

(** The same sort for a comparator that returns an integer and cannot
    throw ([Array_sort_pure] below relates the two). *)
Fixpoint insertZ {A : Type} (cmp : A -> A -> Z) (x : A) (sorted : list A) : list A :=
  match sorted with
  | [] => [x]
  | y :: rest => if 0 <? cmp x y then y :: insertZ cmp x rest else x :: y :: rest
  end.

Fixpoint sortZ {A : Type} (cmp : A -> A -> Z) (arr : list A) : list A :=
  match arr with
  | [] => []
  | x :: rest => insertZ cmp x (sortZ cmp rest)
  end.

(** The comparator is consistent: it never calls two elements each
    greater than the other, and its "not greater" is transitive. *)
Definition consistent {A : Type} (cmp : A -> A -> Z) : Prop :=
  (forall a b, 0 < cmp a b -> cmp b a <= 0)
  /\ (forall a b c, cmp a b <= 0 -> cmp b c <= 0 -> cmp a c <= 0).

(** ** The memoised view [data] *)

Section View.
Variable env : Imports.

(** The comparator of the first [sort]. *)
Definition baseCompare (a b : Connection.t) : Z :=
  if negb (Bool.eqb (Connection.completed a) (Connection.completed b)) then
    if Connection.completed a then 1 else -1
  else
    let diffTime := Connection.start a - Connection.start b in
    if negb (diffTime =? 0) then diffTime
    else localeCompare env (Connection.id a) (Connection.id b).

(** The base order in the words of the specification: active before
    completed; within a group by ascending start; on equal start by the
    collation of the ids. *)
Definition baseOrder (a b : Connection.t) : Prop :=
  (Connection.completed a = false /\ Connection.completed b = true)
  \/ (Connection.completed a = Connection.completed b
      /\ (Connection.start a < Connection.start b
          \/ (Connection.start a = Connection.start b
              /\ localeCompare env (Connection.id a) (Connection.id b) <= 0))).

(** The callback of [map]. *)
Definition toRow (c : Connection.t) : TableRow.t :=
  let m := Connection.metadata c in
  {| TableRow.id := Connection.id c;
     TableRow.host :=
       (if String.eqb (Metadata.host m) "" then Metadata.destinationIP m
        else Metadata.host m) ++ ":" ++ Metadata.destinationPort m;
     TableRow.chains := join " --> " (rev (Connection.chains c));
     TableRow.rule :=
       if String.eqb (Connection.rule c) (RuleSet env)
       then Connection.rule c ++ "(" ++ Connection.rulePayload c ++ ")"
       else Connection.rule c;
     TableRow.time := fromNow env (Connection.start c);
     TableRow.upload := formatTraffic (Connection.upload c);
     TableRow.download := formatTraffic (Connection.download c);
     TableRow.type := Metadata.type m;
     TableRow.network := toUpperCase (Metadata.network m);
     TableRow.speed :=
       formatSpeed (Rate.upload (Connection.speed c)) (Rate.download (Connection.speed c));
     TableRow.completed := Connection.completed c |}.

(** The comparator of the second [sort]. *)
Definition rowCompare (sort : TableSort) (a b : TableRow.t) : completion number :=
  match column sort with
  | None => Return (Num 0)
  | Some col =>
      let aValue := TableRow.get col a in
      let bValue := TableRow.get col b in
      if decide (col = Download \/ col = Upload) then
        aSpeed ← parseTraffic aValue;
        bSpeed ← parseTraffic bValue;
        Return (if asc sort then number_sub aSpeed bSpeed else number_sub bSpeed aSpeed)
      else
        Return (Num (if asc sort then localeCompare env aValue bValue
                     else localeCompare env bValue aValue))
  end.

(** [data]: [connections.sort(...)] orders the array [connections] itself
    and returns that same array; [map] builds a new array, which the second
    [sort] orders. The first component is the content of the array
    [connections] once the memo has run, the second the value of [data].
    The first comparator cannot throw, so the first sort is [sortZ]. *)
Definition data (sort : TableSort) (connections : list Connection.t)
    : list Connection.t * completion (list TableRow.t) :=
  let connections' := sortZ baseCompare connections in
  (connections', Array_sort (rowCompare sort) (map toRow connections')).
End View.

(** The value [parseTraffic] decodes from a cell, 0 when it decodes none. *)
Definition decodedTraffic (cell : string) : Z :=
  match parseTraffic cell with
  | Return (Num n) => n
  | _ => 0
  end.

(** The comparator of the second sort on a traffic column, through the
    decoded values. *)
Definition trafficCompare (col : Columns) (ascending : bool) (a b : TableRow.t) : Z :=
  if ascending
  then decodedTraffic (TableRow.get col a) - decodedTraffic (TableRow.get col b)
  else decodedTraffic (TableRow.get col b) - decodedTraffic (TableRow.get col a).

(** The collation of code units, a collation [localeCompare] agrees with on
    ids made of digits and lower-case letters. *)
Definition codeUnitCompare (a b : string) : Z :=
  match String.compare a b with
  | Lt => -1
  | Eq => 0
  | Gt => 1
  end.

Definition sampleImports : Imports :=
  {| localeCompare := codeUnitCompare;
     fromNow := fun _ => "a few seconds ago";
     RuleSet := "RuleSet" |}.

(** ** The telemetry feed *)

(** The wire records of [@lib/request], by the fields the view reads. *)
Module API.
Record Connections : Type := mkConnections {
  id : string;
  metadata : Metadata.t;
  upload : Z;
  download : Z;
  start : Z;
  chains : list string;
  rule : string;
  rulePayload : string
}.

Record Snapshot : Type := mkSnapshot {
  uploadTotal : Z;
  downloadTotal : Z;
  connections : list Connections
}.
End API.

(** Modelled from the spec: the ConnectionStore behind [useConnections]
    (the module [./store] is not among the sources). The state is the
    mapping from id to connection and the [retainClosed] flag; [feed]
    follows the steps of section 4.1 of the specification. *)
Module ConnectionStore.
Record t : Type := mk {
  mapping : gmap string Connection.t;
  retainClosed : bool
}.

(** Modelled from the spec: the record stored for an unknown id,
    [speed = {0,0}] and [completed = false]. *)
Definition fresh (r : API.Connections) : Connection.t :=
  {| Connection.id := API.id r;
     Connection.metadata := API.metadata r;
     Connection.chains := API.chains r;
     Connection.rule := API.rule r;
     Connection.rulePayload := API.rulePayload r;
     Connection.start := API.start r;
     Connection.upload := API.upload r;
     Connection.download := API.download r;
     Connection.speed := {| Rate.upload := 0; Rate.download := 0 |};
     Connection.completed := false |}.

(** Modelled from the spec: the record of a known, active id takes the
    incoming counters and metadata, and the clamped deltas
    [max(0, new - old)] as its speed. *)
Definition refresh (old : Connection.t) (r : API.Connections) : Connection.t :=
  {| Connection.id := API.id r;
     Connection.metadata := API.metadata r;
     Connection.chains := API.chains r;
     Connection.rule := API.rule r;
     Connection.rulePayload := API.rulePayload r;
     Connection.start := API.start r;
     Connection.upload := API.upload r;
     Connection.download := API.download r;
     Connection.speed :=
       {| Rate.upload := Z.max 0 (API.upload r - Connection.upload old);
          Rate.download := Z.max 0 (API.download r - Connection.download old) |};
     Connection.completed := false |}.

(** Modelled from the spec: step 3 for one incoming record; a record
    whose id is known and completed is ignored. *)
Definition reconcile (m : gmap string Connection.t) (r : API.Connections)
    : gmap string Connection.t :=
  match m !! API.id r with
  | None => <[API.id r := fresh r]> m
  | Some old =>
      if Connection.completed old then m
      else <[API.id r := refresh old r]> m
  end.

(** Modelled from the spec: step 4 for one stored record, [completed]
    set and the speed frozen at zero. *)
Definition close (c : Connection.t) : Connection.t :=
  {| Connection.id := Connection.id c;
     Connection.metadata := Connection.metadata c;
     Connection.chains := Connection.chains c;
     Connection.rule := Connection.rule c;
     Connection.rulePayload := Connection.rulePayload c;
     Connection.start := Connection.start c;
     Connection.upload := Connection.upload c;
     Connection.download := Connection.download c;
     Connection.speed := {| Rate.upload := 0; Rate.download := 0 |};
     Connection.completed := true |}.

(** Modelled from the spec: step 4 over the mapping, for the ids absent
    from the incoming set [present]. *)
Definition closeAbsent (present : gset string) (m : gmap string Connection.t)
    : gmap string Connection.t :=
  map_imap (fun k c =>
              Some (if decide (k ∈ present) then c
                    else if Connection.completed c then c else close c)) m.

(** Modelled from the spec: step 5, the purge of completed records. *)
Definition purge (m : gmap string Connection.t) : gmap string Connection.t :=
  filter (fun kc => Connection.completed kc.2 = false) m.

(** Modelled from the spec: [feed] on the connections of one snapshot
    (steps 2 to 5; step 1, the totals, is done by the caller). *)
Definition feed (incoming : list API.Connections) (s : t) : t :=
  let present : gset string := list_to_set (map API.id incoming) in
  let reconciled := foldl reconcile (mapping s) incoming in
  let closed := closeAbsent present reconciled in
  {| mapping := if retainClosed s then closed else purge closed;
     retainClosed := retainClosed s |}.

(** Modelled from the spec: the stored speed of an id. *)
Definition speedOf (X : string) (s : t) : option (Z * Z) :=
  (fun c => (Rate.upload (Connection.speed c), Rate.download (Connection.speed c)))
    <$> mapping s !! X.
End ConnectionStore.

(** The state the stream handler writes: the totals of [useObject] and
    the store of [useConnections]. *)
Record Traffic : Type := {
  uploadTotal : Z;
  downloadTotal : Z
}.

Record ViewState : Type := {
  traffic : Traffic;
  store : ConnectionStore.t
}.

(** The body of the [for ... of] loop in [handleConnection]. *)
Definition handleSnapshot (st : ViewState) (snapshot : API.Snapshot) : ViewState :=
  {| traffic := {| uploadTotal := API.uploadTotal snapshot;
                   downloadTotal := API.downloadTotal snapshot |};
     store := ConnectionStore.feed (API.connections snapshot) (store st) |}.

Definition handleConnection (snapshots : list API.Snapshot) (st : ViewState) : ViewState :=
  foldl handleSnapshot st snapshots.

(** The record a snapshot carries for id [X]. *)
Definition recordOf (X : string) (snapshot : API.Snapshot) : option API.Connections :=
  find (fun r => String.eqb (API.id r) X) (API.connections snapshot).

(** No two connections of one snapshot share an id. *)
Definition uniqueIds (snapshot : API.Snapshot) : Prop :=
  NoDup (map API.id (API.connections snapshot)).

#[global] Instance uniqueIds_dec (snapshot : API.Snapshot) : Decision (uniqueIds snapshot).
Proof. unfold uniqueIds. apply _. Defined.

(** The store holds, for id [X], an active record with the counters of
    the wire record [r]. *)
Definition tracks (X : string) (r : API.Connections) (s : ConnectionStore.t) : Prop :=
  exists c,
    ConnectionStore.mapping s !! X = Some c
    /\ Connection.completed c = false
    /\ Connection.upload c = API.upload r
    /\ Connection.download c = API.download r.

(** ** Predicates used to state the properties *)

(** [hay.includes(needle)]. *)
Fixpoint includes (needle hay : string) : bool :=
  String.prefix needle hay
  || match hay with
     | String _ rest => includes needle rest
     | EmptyString => false
     end.

(** Number of occurrences of a character. *)
Fixpoint countChar (c : ascii) (s : string) : nat :=
  match s with
  | EmptyString => O
  | String d rest => (if Ascii.eqb d c then 1 else 0) + countChar c rest
  end.

(** Every character of a string passes a test. *)
Fixpoint allChars (P : ascii -> bool) (s : string) : bool :=
  match s with
  | EmptyString => true
  | String c rest => P c && allChars P rest
  end.

Definition startsWithDigit (s : string) : bool :=
  match s with
  | String c _ => isDigit c
  | EmptyString => false
  end.

Definition notSpace (c : ascii) : bool := negb (Ascii.eqb c " ").

(** ** Header clicks, row comparators and decoded values *)

(** The sort state after a run of clicks on column headers; every
    header carries the id of a column. *)
Definition clickHeaders (ids : list Columns) (sort : TableSort) : TableSort :=
  foldl (fun s id => handleClick (Some id) s) sort ids.

(** The first code unit of either arrow of [formatSpeed]. *)
Definition arrowLead : ascii := ascii_of_nat 226.

Definition notArrowLead (c : ascii) : bool := negb (Ascii.eqb c arrowLead).

(** The comparator of the second sort on a column other than upload and
    download. *)
Definition textCompare (env : Imports) (col : Columns) (ascending : bool)
    (a b : TableRow.t) : Z :=
  if ascending
  then localeCompare env (TableRow.get col a) (TableRow.get col b)
  else localeCompare env (TableRow.get col b) (TableRow.get col a).

(** The integer the second comparator returns on projected rows. *)
Definition rowOrder (env : Imports) (sort : TableSort) (a b : TableRow.t) : Z :=
  match column sort with
  | None => 0
  | Some col =>
      if decide (col = Download \/ col = Upload)
      then trafficCompare col (asc sort) a b
      else textCompare env col (asc sort) a b
  end.

(** The value [parseTraffic] reads back from [formatTraffic] below 2^42:
    the count itself at the byte unit, else the whole units of the
    two-decimal text. *)
Definition decodedBytes (num : Z) : Z :=
  if num <? 1024 then num
  else hundredths num (unitSize (magnitude num)) / 100
       * Zpos (unitSize (magnitude num)).

(** What a header shows after its label:
    [sort.column === id && (sort.asc ? ' ↑' : ' ↓')], nothing when the
    test fails. *)
Definition headerArrow (id : Columns) (sort : TableSort) : option string :=
  if decide (column sort = Some id)
  then Some (if asc sort then " ↑" else " ↓")
  else None.

(** ** Sample inputs *)

(** A connection with sample metadata. *)
Definition sampleConnection (id : string) (start upload download : Z) (completed : bool)
    : Connection.t :=
  {| Connection.id := id;
     Connection.metadata :=
       {| Metadata.host := "example.org"; Metadata.destinationIP := "93.184.216.34";
          Metadata.destinationPort := "443"; Metadata.type := "HTTPS";
          Metadata.network := "tcp" |};
     Connection.chains := ["DIRECT"];
     Connection.rule := "Match";
     Connection.rulePayload := "";
     Connection.start := start;
     Connection.upload := upload;
     Connection.download := download;
     Connection.speed := {| Rate.upload := 0; Rate.download := 0 |};
     Connection.completed := completed |}.

Definition sampleConnections : list Connection.t :=
  [ sampleConnection "d" 1000 0 0 true;
    sampleConnection "c" 3000 0 0 false;
    sampleConnection "b" 2000 0 0 false;
    sampleConnection "a" 2000 0 0 false ].

Definition sampleRecord (id : string) (upload download : Z) : API.Connections :=
  {| API.id := id;
     API.metadata :=
       {| Metadata.host := "example.org"; Metadata.destinationIP := "93.184.216.34";
          Metadata.destinationPort := "443"; Metadata.type := "HTTPS";
          Metadata.network := "tcp" |};
     API.upload := upload;
     API.download := download;
     API.start := 1000;
     API.chains := ["DIRECT"];
     API.rule := "Match";
     API.rulePayload := "" |}.

Definition sampleSnapshot (records : list API.Connections) : API.Snapshot :=
  {| API.uploadTotal := 0; API.downloadTotal := 0; API.connections := records |}.

Definition initialState : ViewState :=
  {| traffic := {| uploadTotal := 0; downloadTotal := 0 |};
     store := {| ConnectionStore.mapping := ∅; ConnectionStore.retainClosed := false |} |}.

Definition samplePre : list API.Snapshot :=
  [ sampleSnapshot [sampleRecord "c0" 10 10] ].

Definition sampleRun : list API.Snapshot :=
  [ sampleSnapshot [sampleRecord "c0" 20 20; sampleRecord "c1" 100 200];
    sampleSnapshot [sampleRecord "c1" 150 260];
    sampleSnapshot [sampleRecord "c2" 1 1; sampleRecord "c1" 150 300] ].

(** * Properties *)

(** ** Sort state *)

(** C4: from the descending state of one column, selecting another column
    makes that column active and keeps the direction descending (the
    handler writes the [column] key only), where the specification asks
    for ascending. *)
Theorem handleSort_other_column_keeps_descending :
  handleSort (Some Network) {| column := Some Host; asc := false |}
  = {| column := Some Network; asc := false |}.
Proof. reflexivity. Qed.

(** X1: repeated selection of one column walks none, ascending,
    descending, none. *)
Lemma handleSort_cycle (c : Columns) :
  handleSort (Some c) initialSort = {| column := Some c; asc := true |}
  /\ handleSort (Some c) {| column := Some c; asc := true |}
     = {| column := Some c; asc := false |}
  /\ handleSort (Some c) {| column := Some c; asc := false |} = initialSort.
Proof.
  unfold handleSort, initialSort; simpl.
  repeat split; repeat case_decide; try congruence; reflexivity.
Qed.

(** Selecting a column that is not the active one makes it the active
    column and leaves [asc] as it was. *)
Lemma handleSort_other_column (c : TableColumn) (sort : TableSort) :
  c <> column sort ->
  handleSort c sort = {| column := c; asc := asc sort |}.
Proof.
  intros Hne. unfold handleSort. case_decide; [contradiction | reflexivity].
Qed.

(** ** TrafficCodec and SpeedFormatter *)

(** C7: a byte count of 2 * 10^15 (below 2^53) is divided five times, the
    unit index reaches [trafficUnit.length] and the suffix is not one of
    the five units; [formatTraffic 1024] and [formatTraffic 512] are as
    the specification gives them. *)
Theorem formatTraffic_past_last_unit :
  formatTraffic 2000000000000000 = "1.78 undefined"
  /\ formatTraffic 1024 = "1.00 KB"
  /\ formatTraffic 512 = "512 B".
Proof. repeat split; vm_compute; reflexivity. Qed.

(** The 32-bit wrap of [~~] stops the loop early when the quotient is a
    multiple of 2^32: 2^42 bytes stay at the byte unit. *)
Lemma formatTraffic_wraps_at_4TB :
  formatTraffic (2 ^ 42) = "4398046511104 B".
Proof. vm_compute. reflexivity. Qed.

(** C5: 1536 bytes format as 1.50 KB and parse back as 1024, half a unit
    away, because [parseInt] drops the decimals; 2048 and byte-unit values
    survive the round trip. *)
Theorem parseTraffic_formatTraffic_drops_decimals :
  formatTraffic 1536 = "1.50 KB"
  /\ parseTraffic (formatTraffic 1536) = Return (Num 1024)
  /\ parseTraffic (formatTraffic 2048) = Return (Num 2048)
  /\ parseTraffic (formatTraffic 512) = Return (Num 512).
Proof. repeat split; vm_compute; reflexivity. Qed.

(** C8: [formatSpeed] returns a dash when both rates are zero, the upload
    and the download arrow with their rates when both are nonzero, the
    upload arrow alone when only the upload rate is nonzero and the download
    arrow alone when only the download rate is nonzero, each rate printed
    by [formatTraffic]; [formatSpeed 0 0] is the dash, and
    [formatSpeed 100 0] starts with the upload arrow and has no download
    arrow. *)
Theorem formatSpeed_cases (upload download : Z) :
  (upload = 0 /\ download = 0 -> formatSpeed upload download = "-")
  /\ (upload <> 0 /\ download <> 0 ->
      formatSpeed upload download
      = "↑ " ++ formatTraffic upload ++ "/s ↓ " ++ formatTraffic download ++ "/s")
  /\ (upload <> 0 /\ download = 0 ->
      formatSpeed upload download = "↑ " ++ formatTraffic upload ++ "/s")
  /\ (upload = 0 /\ download <> 0 ->
      formatSpeed upload download = "↓ " ++ formatTraffic download ++ "/s")
  /\ formatSpeed 0 0 = "-"
  /\ String.prefix "↑" (formatSpeed 100 0) = true
  /\ includes "↓" (formatSpeed 100 0) = false.
Proof.
  unfold formatSpeed.
  destruct (Z.eqb_spec upload 0) as [Hu | Hu], (Z.eqb_spec download 0) as [Hd | Hd];
    simpl; repeat split; try (intros [? ?]; congruence); try reflexivity.
Qed.

(** *** [split] and the unit lookup *)

Lemma split_nonempty (sep : ascii) (s : string) : split sep s <> [].
Proof.
  destruct s as [| c rest]; simpl; [discriminate |].
  destruct (Ascii.eqb c sep); [discriminate |].
  destruct (split sep rest); discriminate.
Qed.

Lemma split_length (sep : ascii) (s : string) :
  length (split sep s) = S (countChar sep s).
Proof.
  induction s as [| c rest IH]; simpl; [reflexivity |].
  destruct (Ascii.eqb c sep); simpl.
  - now rewrite IH.
  - destruct (split sep rest) as [| piece pieces] eqn:E.
    + now destruct (split_nonempty sep rest).
    + simpl in *. exact IH.
Qed.

(** A piece without the separator, followed by the separator, is the
    first piece of the split. *)
Lemma split_app (sep : ascii) (piece rest : string) :
  allChars (fun c => negb (Ascii.eqb c sep)) piece = true ->
  split sep (piece ++ String sep rest) = piece :: split sep rest.
Proof.
  induction piece as [| c piece IH]; simpl; intros H.
  - now rewrite Ascii.eqb_refl.
  - apply andb_prop in H as [Hc Hp].
    apply negb_true_iff in Hc. rewrite Hc, (IH Hp). reflexivity.
Qed.

Lemma split_no_separator (sep : ascii) (s : string) :
  allChars (fun c => negb (Ascii.eqb c sep)) s = true ->
  split sep s = [s].
Proof.
  induction s as [| c s IH]; simpl; intros H; [reflexivity |].
  apply andb_prop in H as [Hc Hp].
  apply negb_true_iff in Hc. rewrite Hc, (IH Hp). reflexivity.
Qed.

Lemma indexOf_absent (arr : list string) (x : string) :
  x ∉ arr -> indexOf arr x = -1.
Proof.
  induction arr as [| y arr IH]; simpl; intros Hx; [reflexivity |].
  destruct (String.eqb_spec y x) as [-> | Hne].
  - exfalso. apply Hx. left.
  - rewrite IH; [reflexivity |]. intros Hin. apply Hx. now right.
Qed.

Lemma indexOf_range (arr : list string) (x : string) :
  -1 <= indexOf arr x < Z.of_nat (length arr).
Proof.
  induction arr as [| y arr IH]; simpl; [lia |].
  destruct (String.eqb y x); [lia |].
  destruct (Z.ltb_spec (indexOf arr x) 0); lia.
Qed.

(** [parseTraffic] once the split is known. *)
Lemma parseTraffic_pieces (s num unit : string) (rest : list string) :
  split " " s = num :: unit :: rest ->
  parseTraffic s
  = Return (scaleUp (indexOf trafficUnit (toUpperCase unit)) (parseInt num)).
Proof. intros H. unfold parseTraffic. now rewrite H. Qed.

(** C6, as the code has it: with a unit token outside the supported units
    the lookup yields -1, nothing is scaled, and the call returns the
    integer read from the numeric token (or [NaN]) instead of failing. *)
Theorem parseTraffic_unknown_unit (s num unit : string) (rest : list string) :
  split " " s = num :: unit :: rest ->
  toUpperCase unit ∉ trafficUnit ->
  parseTraffic s = Return (parseInt num).
Proof.
  intros Hsplit Hunit.
  rewrite (parseTraffic_pieces _ _ _ _ Hsplit), (indexOf_absent _ _ Hunit).
  reflexivity.
Qed.

Lemma parseTraffic_unknown_unit_witness :
  parseTraffic "5 XB" = Return (parseInt "5") /\ parseInt "5" = Num 5.
Proof.
  split; [| reflexivity].
  apply (parseTraffic_unknown_unit "5 XB" "5" "XB" []); [reflexivity |].
  refine (bool_decide_unpack _ _). vm_compute. exact I.
Defined.

(** C6, as stated, fails: the unit XB is not supported and the call
    returns 5; with the numeric token 0 it returns 0. *)
Lemma parseTraffic_unknown_unit_returns :
  ~ (forall s num unit rest,
        split " " s = num :: unit :: rest ->
        toUpperCase unit ∉ trafficUnit ->
        exists e, parseTraffic s = Throw e)
  /\ parseTraffic "5 XB" = Return (Num 5)
  /\ parseTraffic "0 XB" = Return (Num 0).
Proof.
  split; [| split; reflexivity].
  intros H.
  destruct (H "5 XB" "5" "XB" [] eq_refl) as [e He].
  - refine (bool_decide_unpack _ _). vm_compute. exact I.
  - discriminate He.
Qed.

(** C10, as the code has it: the call throws exactly when the input has no
    space; with at least one space the first two pieces are the number and
    the unit, and the pieces after them are ignored. *)
Theorem parseTraffic_throws_iff_no_space (s : string) :
  (countChar " " s = 0%nat <-> parseTraffic s = Throw TypeError)
  /\ (forall num unit rest,
        split " " s = num :: unit :: rest ->
        parseTraffic s
        = Return (scaleUp (indexOf trafficUnit (toUpperCase unit)) (parseInt num))).
Proof.
  split; [| intros; eapply parseTraffic_pieces; eassumption].
  pose proof (split_length " " s) as Hlen.
  unfold parseTraffic.
  destruct (split " " s) as [| num [| unit rest]]; simpl in Hlen; split; intros H;
    try reflexivity; try discriminate; lia.
Qed.

(** C10, as stated, fails: an input with two spaces reaches the unit
    lookup and yields a byte count. *)
Lemma parseTraffic_second_space_ignored :
  ~ (forall s v, parseTraffic s = Return v -> countChar " " s = 1%nat)
  /\ parseTraffic "1 KB x" = Return (Num 1024).
Proof.
  split; [| reflexivity].
  intros H. specialize (H "1 KB x" (Num 1024) eq_refl). discriminate H.
Qed.

(** *** Printing and reading decimal digits *)

Lemma digitChar_spec (d : Z) :
  0 <= d < 10 ->
  isDigit (digitChar d) = true /\ digitValue (digitChar d) = d.
Proof.
  intros Hd.
  assert (Hcases : d = 0 \/ d = 1 \/ d = 2 \/ d = 3 \/ d = 4 \/ d = 5 \/ d = 6
                   \/ d = 7 \/ d = 8 \/ d = 9) by lia.
  repeat destruct Hcases as [-> | Hcases]; try subst d; split; reflexivity.
Qed.

Lemma isDigit_digitChar_mod (n : Z) : isDigit (digitChar (n mod 10)) = true.
Proof. apply digitChar_spec, Z.mod_pos_bound. lia. Qed.

Lemma digitValue_digitChar_mod (n : Z) : digitValue (digitChar (n mod 10)) = n mod 10.
Proof. apply digitChar_spec, Z.mod_pos_bound. lia. Qed.

Lemma digitsAux_app (fuel : nat) (n : Z) (acc rest : string) :
  digitsAux fuel n acc ++ rest = digitsAux fuel n (acc ++ rest).
Proof.
  revert n acc. induction fuel as [| fuel IH]; intros n acc; simpl; [reflexivity |].
  destruct (n <? 10); [reflexivity | apply IH].
Qed.

Lemma digitsAux_allChars (P : ascii -> bool) (fuel : nat) (n : Z) (acc : string) :
  (forall d, P (digitChar (d mod 10)) = true) ->
  allChars P acc = true ->
  allChars P (digitsAux fuel n acc) = true.
Proof.
  intros HP. revert n acc.
  induction fuel as [| fuel IH]; intros n acc Hacc; simpl; [exact Hacc |].
  destruct (n <? 10).
  - simpl. now rewrite HP, Hacc.
  - apply IH. simpl. now rewrite HP, Hacc.
Qed.

Lemma digitsAux_startsWithDigit (fuel : nat) (n : Z) (acc : string) :
  startsWithDigit (digitsAux (S fuel) n acc) = true.
Proof.
  revert n acc. induction fuel as [| fuel IH]; intros n acc.
  - simpl. destruct (n <? 10); simpl; apply isDigit_digitChar_mod.
  - change (digitsAux (S (S fuel)) n acc)
      with (let acc' := String (digitChar (n mod 10)) acc in
            if n <? 10 then acc' else digitsAux (S fuel) (n / 10) acc').
    simpl. destruct (n <? 10); [simpl; apply isDigit_digitChar_mod | apply IH].
Qed.

Lemma decimal_startsWithDigit (n : Z) (rest : string) :
  startsWithDigit (decimal n ++ rest) = true.
Proof. unfold decimal. rewrite digitsAux_app. apply digitsAux_startsWithDigit. Qed.

Lemma decimal_allChars (P : ascii -> bool) (n : Z) :
  (forall d, P (digitChar (d mod 10)) = true) ->
  allChars P (decimal n) = true.
Proof. intros HP. apply digitsAux_allChars; [exact HP | reflexivity]. Qed.

Lemma allChars_app (P : ascii -> bool) (a b : string) :
  allChars P (a ++ b) = allChars P a && allChars P b.
Proof.
  induction a as [| c a IH]; simpl; [reflexivity |].
  now rewrite IH, andb_assoc.
Qed.

Lemma readDigits_started (s : string) (v : Z) :
  exists w, readDigits s (Some v) = Some w.
Proof.
  revert v. induction s as [| c s IH]; intros v; simpl; [eauto |].
  destruct (isDigit c); eauto.
Qed.

Lemma readDigits_from_zero (s : string) :
  startsWithDigit s = true ->
  readDigits s None = readDigits s (Some 0).
Proof.
  destruct s as [| c s]; simpl; [discriminate |].
  intros ->. reflexivity.
Qed.

Lemma readDigits_digit (c : ascii) (rest : string) (v : Z) :
  isDigit c = true ->
  readDigits (String c rest) (Some v) = readDigits rest (Some (v * 10 + digitValue c)).
Proof. intros H. cbn [readDigits]. now rewrite H. Qed.

Lemma readDigits_digitsAux (fuel : nat) (n : Z) (acc : string) :
  0 <= n < 2 ^ Z.of_nat fuel ->
  readDigits (digitsAux fuel n acc) (Some 0) = readDigits acc (Some n).
Proof.
  revert n acc. induction fuel as [| fuel IH]; intros n acc Hn.
  - change (2 ^ Z.of_nat 0) with 1 in Hn. replace n with 0 by lia. reflexivity.
  - cbn [digitsAux].
    assert (Hstep : readDigits (String (digitChar (n mod 10)) acc) (Some (n / 10))
                    = readDigits acc (Some n)).
    { rewrite readDigits_digit by apply isDigit_digitChar_mod.
      rewrite digitValue_digitChar_mod.
      do 2 f_equal. pose proof (Z.div_mod n 10). lia. }
    destruct (Z.ltb_spec n 10) as [Hlt | Hge].
    + rewrite <- Hstep.
      rewrite !readDigits_digit by apply isDigit_digitChar_mod.
      rewrite (Z.div_small n 10) by lia. reflexivity.
    + rewrite IH; [exact Hstep |].
      rewrite Nat2Z.inj_succ, Z.pow_succ_r in Hn by lia.
      split; [apply Z.div_pos; lia |].
      apply Z.div_lt_upper_bound; lia.
Qed.

Lemma readDigits_decimal (n : Z) (rest : string) :
  0 <= n ->
  readDigits (decimal n ++ rest) None = readDigits rest (Some n).
Proof.
  intros Hn.
  rewrite readDigits_from_zero by apply decimal_startsWithDigit.
  unfold decimal. rewrite digitsAux_app. apply readDigits_digitsAux.
  split; [exact Hn |].
  rewrite Nat2Z.inj_succ, Z2Nat.id by apply Z.log2_nonneg.
  destruct (Z.eq_dec n 0) as [-> | Hnz]; [reflexivity |].
  apply Z.log2_spec. lia.
Qed.

(** Reading stops at the first character that is no digit. *)
Lemma readDigits_stop (rest : string) (v : option Z) :
  startsWithDigit rest = false -> readDigits rest v = v.
Proof. destruct rest as [| c rest]; simpl; [reflexivity | intros ->; reflexivity]. Qed.

Lemma trimStart_digit (s : string) :
  startsWithDigit s = true -> trimStart s = s.
Proof.
  destruct s as [| c s]; simpl; [reflexivity |].
  unfold isDigit, isWhiteSpace. intros H.
  destruct (Nat.leb_spec 48 (nat_of_ascii c)); [| discriminate].
  destruct (Nat.leb_spec (nat_of_ascii c) 13); [lia |].
  rewrite andb_false_r. simpl.
  destruct (Nat.eqb_spec (nat_of_ascii c) 32); [lia | reflexivity].
Qed.

Lemma parseInt_minus (rest : string) :
  parseInt (String "-" rest)
  = match readDigits rest None with Some v => Num (- v) | None => NaN end.
Proof. reflexivity. Qed.

Lemma parseInt_digit (s : string) :
  startsWithDigit s = true ->
  parseInt s = match readDigits s None with Some v => Num v | None => NaN end.
Proof.
  intros H. unfold parseInt. rewrite (trimStart_digit _ H).
  destruct s as [| c s]; [discriminate H |].
  destruct c as [[] [] [] [] [] [] [] []]; try reflexivity; discriminate H.
Qed.

(** [parseInt] reads back a printed integer, whatever follows it. *)
Lemma parseInt_integerToString (n : Z) (rest : string) :
  startsWithDigit rest = false ->
  parseInt (integerToString n ++ rest) = Num n.
Proof.
  intros Hrest. unfold integerToString.
  destruct (Z.ltb_spec n 0) as [Hneg | Hpos].
  - change (("-" ++ decimal (- n)) ++ rest) with (String "-" (decimal (- n) ++ rest)).
    rewrite parseInt_minus, readDigits_decimal, readDigits_stop by (assumption || lia).
    f_equal. lia.
  - rewrite parseInt_digit by apply decimal_startsWithDigit.
    rewrite readDigits_decimal, readDigits_stop by assumption.
    reflexivity.
Qed.

Lemma parseInt_digit_number (s : string) :
  startsWithDigit s = true -> exists n, parseInt s = Num n.
Proof.
  intros H. rewrite (parseInt_digit _ H), (readDigits_from_zero _ H).
  destruct (readDigits_started s 0) as [w ->]. eauto.
Qed.

Lemma parseInt_minus_number (s : string) :
  startsWithDigit s = true -> exists n, parseInt (String "-" s) = Num n.
Proof.
  intros H. rewrite parseInt_minus, (readDigits_from_zero _ H).
  destruct (readDigits_started s 0) as [w ->]. eauto.
Qed.

Lemma notSpace_digitChar (d : Z) : notSpace (digitChar (d mod 10)) = true.
Proof.
  pose proof (Z.mod_pos_bound d 10 ltac:(lia)) as Hd.
  assert (Hcases : d mod 10 = 0 \/ d mod 10 = 1 \/ d mod 10 = 2 \/ d mod 10 = 3
                   \/ d mod 10 = 4 \/ d mod 10 = 5 \/ d mod 10 = 6 \/ d mod 10 = 7
                   \/ d mod 10 = 8 \/ d mod 10 = 9) by lia.
  repeat destruct Hcases as [-> | Hcases]; try rewrite Hcases; reflexivity.
Qed.

Lemma integerToString_notSpace (n : Z) : allChars notSpace (integerToString n) = true.
Proof.
  unfold integerToString. destruct (n <? 0).
  - change ("-" ++ decimal (- n)) with (String "-" (decimal (- n))).
    cbn [allChars]. rewrite decimal_allChars by apply notSpace_digitChar. reflexivity.
  - apply decimal_allChars, notSpace_digitChar.
Qed.

Lemma toFixed2_notSpace (x : Q) : allChars notSpace (toFixed2 x) = true.
Proof.
  unfold toFixed2. cbv zeta.
  rewrite !allChars_app, decimal_allChars by apply notSpace_digitChar.
  cbn [allChars]. rewrite !notSpace_digitChar.
  destruct (Qnum x <? 0); reflexivity.
Qed.

Lemma append_empty_r (s : string) : s ++ "" = s.
Proof.
  induction s as [| c s IH]; [reflexivity |].
  change (String c (s ++ "") = String c s). now rewrite IH.
Qed.

Lemma parseInt_integerToString_exact (n : Z) : parseInt (integerToString n) = Num n.
Proof.
  rewrite <- (parseInt_integerToString n "" eq_refl). now rewrite append_empty_r.
Qed.

Lemma integerToString_number (n : Z) : exists v, parseInt (integerToString n) = Num v.
Proof. exists n. apply parseInt_integerToString_exact. Qed.

Lemma toFixed2_number (x : Q) : exists v, parseInt (toFixed2 x) = Num v.
Proof.
  unfold toFixed2. cbv zeta.
  destruct (Qnum x <? 0).
  - apply parseInt_minus_number, decimal_startsWithDigit.
  - apply parseInt_digit_number, decimal_startsWithDigit.
Qed.

Lemma scaleUp_number (idx n : Z) : exists v, scaleUp idx (Num n) = Num v.
Proof.
  unfold scaleUp. induction (Z.to_nat idx) as [| k [v IH]]; simpl; [eauto |].
  rewrite IH. simpl. eauto.
Qed.

Lemma unitText_notSpace (idx : nat) :
  allChars notSpace (unitText (trafficUnit !! idx)) = true.
Proof. do 6 (destruct idx as [| idx]; [reflexivity |]). reflexivity. Qed.

(** The string [formatTraffic] builds: a numeral, one space, a suffix. *)
Lemma formatTraffic_shape (num : Z) :
  exists body suffix,
    formatTraffic num = body ++ String " " suffix
    /\ allChars notSpace body = true
    /\ allChars notSpace suffix = true
    /\ exists v, parseInt body = Num v.
Proof.
  unfold formatTraffic.
  destruct (formatLoop (length trafficUnit) (inject_Z num) 0) as [scaled idx].
  destruct (idx =? 0)%nat.
  - exists (integerToString num), (unitText (trafficUnit !! idx)).
    repeat split; auto using integerToString_notSpace, unitText_notSpace, integerToString_number.
  - exists (toFixed2 scaled), (unitText (trafficUnit !! idx)).
    repeat split; auto using toFixed2_notSpace, unitText_notSpace, toFixed2_number.
Qed.

(** On a formatted byte count [parseTraffic] neither throws nor yields
    [NaN]. *)
Lemma parseTraffic_formatTraffic_number (num : Z) :
  exists v, parseTraffic (formatTraffic num) = Return (Num v).
Proof.
  destruct (formatTraffic_shape num) as (body & suffix & -> & Hb & Hs & v & Hv).
  unfold parseTraffic.
  rewrite (split_app " " body suffix Hb), (split_no_separator " " suffix Hs), Hv.
  destruct (scaleUp_number (indexOf trafficUnit (toUpperCase suffix)) v) as [w ->].
  eauto.
Qed.

(** X2: for a count below 2^53 in magnitude, when [formatTraffic] stays
    at the byte unit, [parseTraffic] returns the byte count itself. *)
Lemma parseTraffic_formatTraffic_bytes (num : Z) :
  - 2 ^ 53 < num < 2 ^ 53 ->
  snd (formatLoop (length trafficUnit) (inject_Z num) 0) = 0%nat ->
  parseTraffic (formatTraffic num) = Return (Num num).
Proof.
  intros _. unfold formatTraffic.
  destruct (formatLoop (length trafficUnit) (inject_Z num) 0) as [scaled idx].
  simpl. intros ->.
  change ((if (0 =? 0)%nat then integerToString num else toFixed2 scaled)
            ++ " " ++ unitText (trafficUnit !! 0%nat))
    with (integerToString num ++ String " " "B").
  unfold parseTraffic.
  rewrite (split_app " " _ "B" (integerToString_notSpace num)).
  cbn [split]. rewrite parseInt_integerToString_exact. reflexivity.
Qed.

(** *** The unit index below 2^42 bytes *)

Lemma Qdiv_1024 (x : Z) (d : positive) :
  ((x # d) / 1024)%Q = (x # (d * 1024)).
Proof. unfold Qdiv, Qmult, Qinv. cbn [Qnum Qden]. f_equal. lia. Qed.

Lemma ToInt32_zero (z : Z) : 0 <= z < 2 ^ 32 -> (ToInt32 z =? 0) = (z =? 0).
Proof.
  intros Hz. unfold ToInt32. cbv zeta. rewrite Z.mod_small by exact Hz.
  destruct (Z.ltb_spec z (2 ^ 31)); [reflexivity |].
  destruct (Z.eqb_spec (z - 2 ^ 32) 0), (Z.eqb_spec z 0); try reflexivity; lia.
Qed.

Lemma formatLoop_step (budget : nat) (x : Z) (d : positive) (idx : nat) :
  0 <= x < 2 ^ 32 * (Zpos d * 1024) ->
  formatLoop (S budget) (x # d) idx
  = if x <? Zpos d * 1024 then (x # d, idx)
    else formatLoop budget (x # (d * 1024)) (S idx).
Proof.
  intros Hx. cbn [formatLoop]. rewrite Qdiv_1024.
  unfold doubleTilde, truncate. cbn [Qnum Qden].
  rewrite Z.quot_div_nonneg by lia.
  rewrite Pos2Z.inj_mul.
  rewrite ToInt32_zero.
  2: { split; [apply Z.div_pos; lia | apply Z.div_lt_upper_bound; lia]. }
  destruct (Z.ltb_spec x (Zpos d * 1024)) as [Hlt | Hge].
  - rewrite Z.div_small by lia. reflexivity.
  - destruct (Z.eqb_spec (x / (Zpos d * 1024)) 0) as [Hz | Hnz]; [| reflexivity].
    apply Z.div_small_iff in Hz; lia.
Qed.

Lemma formatLoop_below_4TB (num : Z) :
  0 <= num < 2 ^ 42 ->
  formatLoop (length trafficUnit) (inject_Z num) 0
  = (num # unitSize (magnitude num), magnitude num).
Proof.
  intros Hnum. unfold magnitude, inject_Z. cbn [length trafficUnit].
  rewrite formatLoop_step by (change (2 ^ 32 * (1 * 1024)) with (2 ^ 42); lia).
  change (Z.pos 1 * 1024) with 1024.
  destruct (Z.ltb_spec num 1024); [reflexivity |].
  rewrite formatLoop_step by lia.
  change (Z.pos (1 * 1024) * 1024) with (1024 ^ 2).
  destruct (Z.ltb_spec num (1024 ^ 2)); [reflexivity |].
  rewrite formatLoop_step by lia.
  change (Z.pos (1 * 1024 * 1024) * 1024) with (1024 ^ 3).
  destruct (Z.ltb_spec num (1024 ^ 3)); [reflexivity |].
  rewrite formatLoop_step by lia.
  change (Z.pos (1 * 1024 * 1024 * 1024) * 1024) with (1024 ^ 4).
  destruct (Z.ltb_spec num (1024 ^ 4)); [reflexivity |].
  rewrite formatLoop_step by lia.
  change (Z.pos (1 * 1024 * 1024 * 1024 * 1024) * 1024) with (1024 ^ 5).
  destruct (Z.ltb_spec num (1024 ^ 5)); [reflexivity | lia].
Qed.

(** X3: below 2^42 bytes the unit index is the number of whole divisions
    by 1024 (at most four), the suffix is the unit at that index, the byte
    unit prints the integer and the other units two decimals. *)
Theorem formatTraffic_below_4TB (num : Z) :
  0 <= num < 2 ^ 42 ->
  exists (k : nat) (unit : string),
    trafficUnit !! k = Some unit
    /\ (k = 0%nat -> num < 1024)
    /\ (k <> 0%nat -> Zpos (unitSize k) <= num)
    /\ (k <> 4%nat -> num < Zpos (unitSize (S k)))
    /\ formatTraffic num
       = (if (k =? 0)%nat then integerToString num else toFixed2 (num # unitSize k))
           ++ " " ++ unit.
Proof.
  intros Hnum. unfold formatTraffic. rewrite (formatLoop_below_4TB num Hnum).
  exists (magnitude num). unfold magnitude.
  destruct (Z.ltb_spec num 1024);
    [| destruct (Z.ltb_spec num (1024 ^ 2));
       [| destruct (Z.ltb_spec num (1024 ^ 3));
          [| destruct (Z.ltb_spec num (1024 ^ 4))]]];
    eexists; (split; [reflexivity |]);
    repeat split; try congruence; intros _; cbn; lia.
Qed.

(** *** Parsing a formatted value *)

Lemma toFixed2_nonneg (x : Z) (d : positive) :
  0 <= x ->
  toFixed2 (x # d)
  = decimal (hundredths x d / 100)
      ++ String "." (String (digitChar (hundredths x d / 10 mod 10))
                       (String (digitChar (hundredths x d mod 10)) "")).
Proof.
  intros Hx. unfold toFixed2. cbv zeta. cbn [Qnum].
  destruct (Z.ltb_spec x 0) as [Hneg | _]; [lia |].
  assert (Hn : Qfloor (Qabs (x # d) * 100 + (1 # 2)) = hundredths x d).
  { unfold Qabs, Qmult, Qplus, Qfloor, hundredths. cbn [Qnum Qden].
    rewrite Z.abs_eq by exact Hx. f_equal; lia. }
  rewrite Hn. reflexivity.
Qed.

Lemma parseInt_toFixed2 (x : Z) (d : positive) :
  0 <= x -> parseInt (toFixed2 (x # d)) = Num (hundredths x d / 100).
Proof.
  intros Hx. rewrite (toFixed2_nonneg x d Hx).
  rewrite parseInt_digit by apply decimal_startsWithDigit.
  rewrite readDigits_decimal, readDigits_stop; [reflexivity | reflexivity |].
  unfold hundredths. apply Z.div_pos; [apply Z.div_pos |]; lia.
Qed.

Lemma formatTraffic_scaled (num : Z) (scaled : Q) (k : nat) :
  formatLoop (length trafficUnit) (inject_Z num) 0 = (scaled, S k) ->
  formatTraffic num = toFixed2 scaled ++ String " " (unitText (trafficUnit !! S k)).
Proof. intros H. unfold formatTraffic. rewrite H. reflexivity. Qed.

Lemma parseTraffic_toFixed2 (scaled : Q) (unit : string) :
  allChars notSpace unit = true ->
  parseTraffic (toFixed2 scaled ++ String " " unit)
  = Return (scaleUp (indexOf trafficUnit (toUpperCase unit)) (parseInt (toFixed2 scaled))).
Proof.
  intros Hunit. unfold parseTraffic.
  rewrite (split_app " " _ _ (toFixed2_notSpace scaled)).
  rewrite (split_no_separator " " unit Hunit). reflexivity.
Qed.

Lemma scaleUp_iter (k : nat) (n : Z) :
  Nat.iter k number_mul1024 (Num n) = Num (n * 1024 ^ Z.of_nat k).
Proof.
  induction k as [| k IH].
  - cbn [Nat.iter nat_rect]. f_equal. change (1024 ^ Z.of_nat 0) with 1. lia.
  - change (Nat.iter (S k) number_mul1024 (Num n))
      with (number_mul1024 (Nat.iter k number_mul1024 (Num n))).
    rewrite IH. cbn [number_mul1024]. f_equal.
    rewrite Nat2Z.inj_succ, Z.pow_succ_r by lia. lia.
Qed.

Lemma scaleUp_Num (idx n : Z) :
  0 <= idx -> scaleUp idx (Num n) = Num (n * 1024 ^ idx).
Proof.
  intros Hidx. unfold scaleUp. rewrite scaleUp_iter, Z2Nat.id by exact Hidx.
  reflexivity.
Qed.

(** The units are upper-case, so each is found at its own index. *)
Lemma indexOf_unitText (k : nat) :
  (k < length trafficUnit)%nat ->
  indexOf trafficUnit (toUpperCase (unitText (trafficUnit !! k))) = Z.of_nat k.
Proof.
  do 5 (destruct k as [| k]; [intros _; vm_compute; reflexivity |]).
  cbn [length trafficUnit]. lia.
Qed.

Lemma magnitude_range (num : Z) :
  1024 <= num < 2 ^ 42 ->
  (magnitude num = 1%nat /\ num < 1024 ^ 2)
  \/ (magnitude num = 2%nat /\ 1024 ^ 2 <= num < 1024 ^ 3)
  \/ (magnitude num = 3%nat /\ 1024 ^ 3 <= num < 1024 ^ 4)
  \/ (magnitude num = 4%nat /\ 1024 ^ 4 <= num).
Proof.
  intros Hnum. unfold magnitude.
  destruct (Z.ltb_spec num 1024); [lia |].
  destruct (Z.ltb_spec num (1024 ^ 2)); [auto |].
  destruct (Z.ltb_spec num (1024 ^ 3)); [auto |].
  destruct (Z.ltb_spec num (1024 ^ 4)); auto 6.
Qed.

Lemma whole_units_bounds (num : Z) (d : positive) :
  0 <= num ->
  num / Zpos d <= hundredths num d / 100 <= num / Zpos d + 1.
Proof.
  intros Hnum. unfold hundredths.
  pose proof (Pos2Z.is_pos d) as Hd.
  pose proof (Z.div_mod num (Zpos d) ltac:(lia)) as Hq.
  pose proof (Z.mod_pos_bound num (Zpos d) Hd) as Hr.
  set (q := num / Zpos d) in *. set (r := num mod Zpos d) in *.
  split.
  - apply Z.div_le_lower_bound; [lia |].
    apply Z.div_le_lower_bound; [lia |]. nia.
  - apply Z.lt_succ_r. apply Z.div_lt_upper_bound; [lia |].
    apply Z.div_lt_upper_bound; [lia |]. nia.
Qed.

(** X7: from 1024 bytes up to 2^42, [parseTraffic] gives back a whole
    number of units of the formatted value: the integer part of the
    two-decimal rendering, which is the quotient of the byte count by the
    unit size or one more. *)
Theorem parseTraffic_formatTraffic_whole_units (num : Z) :
  1024 <= num < 2 ^ 42 ->
  exists w,
    parseTraffic (formatTraffic num)
    = Return (Num (w * Zpos (unitSize (magnitude num))))
    /\ num / Zpos (unitSize (magnitude num)) <= w
       <= num / Zpos (unitSize (magnitude num)) + 1.
Proof.
  intros Hnum.
  exists (hundredths num (unitSize (magnitude num)) / 100).
  split; [| apply whole_units_bounds; lia].
  assert (Hloop := formatLoop_below_4TB num ltac:(lia)).
  destruct (magnitude_range num Hnum) as [[Hk _] | [[Hk _] | [[Hk _] | [Hk _]]]];
    rewrite Hk in *;
    rewrite (formatTraffic_scaled _ _ _ Hloop);
    rewrite parseTraffic_toFixed2 by reflexivity;
    rewrite parseInt_toFixed2 by lia;
    rewrite indexOf_unitText by (cbn [length trafficUnit]; lia);
    rewrite scaleUp_Num by lia;
    do 3 f_equal.
Qed.

(** ** Array.prototype.sort *)

Section Sorting.
Context {A : Type}.

Lemma insertZ_Permutation (cmp : A -> A -> Z) (x : A) (l : list A) :
  Permutation (insertZ cmp x l) (x :: l).
Proof.
  induction l as [| y l IH]; simpl; [reflexivity |].
  destruct (0 <? cmp x y); [| reflexivity].
  rewrite IH. apply perm_swap.
Qed.

Lemma sortZ_Permutation (cmp : A -> A -> Z) (l : list A) :
  Permutation (sortZ cmp l) l.
Proof.
  induction l as [| x l IH]; simpl; [reflexivity |].
  rewrite insertZ_Permutation. now constructor.
Qed.

(** A comparator that answers 0 throughout leaves the array as it is. *)
Lemma sortZ_constant_zero (l : list A) : sortZ (fun _ _ => 0) l = l.
Proof.
  induction l as [| x l IH]; simpl; [reflexivity |].
  rewrite IH. destruct l; reflexivity.
Qed.

Lemma insertZ_sorted (cmp : A -> A -> Z) (x : A) (l : list A) :
  consistent cmp ->
  StronglySorted (fun a b => cmp a b <= 0) l ->
  StronglySorted (fun a b => cmp a b <= 0) (insertZ cmp x l).
Proof.
  intros [Htotal Htrans]. induction 1 as [| y l Hsorted IH Hall]; simpl.
  - repeat constructor.
  - destruct (Z.ltb_spec 0 (cmp x y)) as [Hgt | Hle].
    + constructor; [exact IH |].
      apply (Permutation_Forall (Permutation_sym (insertZ_Permutation cmp x l))).
      constructor; [now apply Htotal | exact Hall].
    + constructor; [now constructor |].
      constructor; [exact Hle |].
      eapply Forall_impl; [exact Hall |]. intros z Hz. now apply (Htrans x y z).
Qed.

Lemma sortZ_sorted (cmp : A -> A -> Z) (l : list A) :
  consistent cmp ->
  StronglySorted (fun a b => cmp a b <= 0) (sortZ cmp l).
Proof.
  intros Hc. induction l as [| x l IH]; simpl; [constructor |].
  now apply insertZ_sorted.
Qed.

(** In a strongly sorted list the relation holds between any earlier and
    any later element. *)
Lemma StronglySorted_positions (R : A -> A -> Prop) (l : list A) :
  StronglySorted R l ->
  forall (i j : nat) (a b : A),
    (i < j)%nat -> l !! i = Some a -> l !! j = Some b -> R a b.
Proof.
  induction 1 as [| x l Hsorted IH Hall]; intros i j a b Hij Hi Hj.
  - rewrite lookup_nil in Hi. discriminate.
  - destruct j as [| j]; [lia |]. simpl in Hj.
    destruct i as [| i]; simpl in Hi.
    + injection Hi as <-. rewrite Forall_forall in Hall.
      apply Hall. eapply list_elem_of_lookup_2. exact Hj.
    + apply (IH i j); [lia | assumption | assumption].
Qed.

(** With a comparator that returns integers and does not throw on the
    elements at hand, the sort is [sortZ]. *)
Lemma insertBy_pure (cmp : A -> A -> completion number) (f : A -> A -> Z)
    (x : A) (l : list A) :
  (forall b, In b l -> cmp x b = Return (Num (f x b))) ->
  insertBy cmp x l = Return (insertZ f x l).
Proof.
  induction l as [| y l IH]; intros H; simpl; [reflexivity |].
  rewrite (H y (or_introl eq_refl)). simpl.
  destruct (0 <? f x y); [| reflexivity].
  rewrite IH; [reflexivity |]. intros b Hb. apply H. now right.
Qed.

Lemma Array_sort_pure (cmp : A -> A -> completion number) (f : A -> A -> Z)
    (l : list A) :
  (forall a b, In a l -> In b l -> cmp a b = Return (Num (f a b))) ->
  Array_sort cmp l = Return (sortZ f l).
Proof.
  induction l as [| x l IH]; intros H; simpl; [reflexivity |].
  rewrite IH by (intros a b Ha Hb; apply H; now right). simpl.
  apply insertBy_pure. intros b Hb.
  apply H; [now left |]. right.
  eapply Permutation_in; [apply sortZ_Permutation | exact Hb].
Qed.
End Sorting.

(** ** The view [data] *)

Section ViewProperties.
Variable env : Imports.

Lemma baseCompare_baseOrder (a b : Connection.t) :
  baseCompare env a b <= 0 <-> baseOrder env a b.
Proof.
  unfold baseCompare, baseOrder.
  destruct (Connection.completed a), (Connection.completed b); simpl;
    try (destruct (Z.eqb_spec (Connection.start a - Connection.start b) 0); simpl);
    intuition (try congruence; try lia).
Qed.

Lemma baseCompare_consistent :
  consistent (localeCompare env) -> consistent (baseCompare env).
Proof.
  intros [Htotal Htrans]. split.
  - intros a b. unfold baseCompare.
    destruct (Connection.completed a), (Connection.completed b); simpl; try lia;
      destruct (Z.eqb_spec (Connection.start a - Connection.start b) 0),
               (Z.eqb_spec (Connection.start b - Connection.start a) 0);
      simpl; try lia; apply Htotal.
  - intros a b c. rewrite !baseCompare_baseOrder. unfold baseOrder.
    intros [[Ha Hb] | [Hab Hlt1]] [[Hb' Hc] | [Hbc Hlt2]]; try congruence.
    + left. split; congruence.
    + left. split; congruence.
    + right. split; [congruence |].
      destruct Hlt1 as [Hlt1 | [Heq1 Hid1]], Hlt2 as [Hlt2 | [Heq2 Hid2]];
        try (left; lia).
      right. split; [lia |]. eapply Htrans; eassumption.
Qed.

Lemma rowCompare_no_column (sort : TableSort) (a b : TableRow.t) :
  column sort = None -> rowCompare env sort a b = Return (Num 0).
Proof. unfold rowCompare. now intros ->. Qed.

(** Without a sort column the second sort returns the rows in the order
    the first sort left the connections in. *)
Lemma data_no_column (sort : TableSort) (connections : list Connection.t) :
  column sort = None ->
  data env sort connections
  = (sortZ (baseCompare env) connections,
     Return (map (toRow env) (sortZ (baseCompare env) connections))).
Proof.
  intros Hcol. unfold data. f_equal.
  rewrite (Array_sort_pure _ (fun _ _ => 0)).
  - now rewrite sortZ_constant_zero.
  - intros a b _ _. now apply rowCompare_no_column.
Qed.

(** C2: with no sort column the rows are the projections of the
    connections in base order: for any two rows, the connection of the
    earlier one is active while the later one is completed, or both are
    in the same group and the earlier one started first, or they started
    together and the earlier id collates first. *)
Theorem data_default_order (sort : TableSort) (connections : list Connection.t) :
  consistent (localeCompare env) ->
  column sort = None ->
  exists ordered,
    snd (data env sort connections) = Return (map (toRow env) ordered)
    /\ Permutation ordered connections
    /\ forall (i j : nat) (a b : Connection.t),
         (i < j)%nat -> ordered !! i = Some a -> ordered !! j = Some b ->
         baseOrder env a b.
Proof.
  intros Hlc Hcol. exists (sortZ (baseCompare env) connections).
  rewrite (data_no_column _ _ Hcol). split; [reflexivity |].
  split; [apply sortZ_Permutation |].
  apply StronglySorted_positions.
  eapply StronglySorted_ind
    with (P := StronglySorted (baseOrder env));
    [constructor | | apply sortZ_sorted, baseCompare_consistent, Hlc].
  intros a l _ IH Hall. constructor; [exact IH |].
  eapply Forall_impl; [exact Hall |]. intros b. apply baseCompare_baseOrder.
Qed.

Lemma trafficCompare_consistent (col : Columns) (ascending : bool) :
  consistent (trafficCompare col ascending).
Proof. unfold consistent, trafficCompare. destruct ascending; split; intros; lia. Qed.

(** The traffic cells of a projected row decode to a number. *)
Lemma toRow_traffic_number (col : Columns) (c : Connection.t) :
  col = Upload \/ col = Download ->
  exists v,
    parseTraffic (TableRow.get col (toRow env c)) = Return (Num v)
    /\ decodedTraffic (TableRow.get col (toRow env c)) = v.
Proof.
  intros [-> | ->]; simpl.
  - destruct (parseTraffic_formatTraffic_number (Connection.upload c)) as [v Hv].
    exists v. unfold decodedTraffic. now rewrite Hv.
  - destruct (parseTraffic_formatTraffic_number (Connection.download c)) as [v Hv].
    exists v. unfold decodedTraffic. now rewrite Hv.
Qed.

Lemma rowCompare_traffic (col : Columns) (ascending : bool) (a b : Connection.t) :
  col = Upload \/ col = Download ->
  rowCompare env {| column := Some col; asc := ascending |} (toRow env a) (toRow env b)
  = Return (Num (trafficCompare col ascending (toRow env a) (toRow env b))).
Proof.
  intros Hcol. unfold rowCompare, trafficCompare. cbn [column asc].
  destruct (toRow_traffic_number col a Hcol) as (x & Hx & ->).
  destruct (toRow_traffic_number col b Hcol) as (y & Hy & ->).
  case_decide as Hdec; [| tauto].
  rewrite Hx, Hy. destruct ascending; reflexivity.
Qed.

(** On a traffic column the view is the stable sort of the rows by
    their decoded values. *)
Lemma data_traffic_column (col : Columns) (ascending : bool)
    (connections : list Connection.t) :
  col = Upload \/ col = Download ->
  snd (data env {| column := Some col; asc := ascending |} connections)
  = Return (sortZ (trafficCompare col ascending)
              (map (toRow env) (sortZ (baseCompare env) connections))).
Proof.
  intros Hcol. unfold data. cbn [snd].
  apply Array_sort_pure. intros a b Ha Hb.
  apply in_map_iff in Ha as (a' & <- & _). apply in_map_iff in Hb as (b' & <- & _).
  now apply rowCompare_traffic.
Qed.

(** With the upload or the download column selected the rows come out
    ordered by the number [parseTraffic] returns for that cell (ascending
    or descending), not by the text of the cell; 9 bytes come before 10240
    bytes although the text 9 B collates after 10.00 KB. That number is
    not the byte count of the row: [parseInt] drops the decimals of the
    cell. *)
Lemma data_traffic_column_numeric (ascending : bool)
    (connections : list Connection.t) (c9 c10240 : Connection.t) :
  (forall col, col = Upload \/ col = Download ->
     exists rows,
       snd (data env {| column := Some col; asc := ascending |} connections)
       = Return rows
       /\ Permutation rows (map (toRow env) connections)
       /\ forall (i j : nat) (a b : TableRow.t),
            (i < j)%nat -> rows !! i = Some a -> rows !! j = Some b ->
            exists x y,
              parseTraffic (TableRow.get col a) = Return (Num x)
              /\ parseTraffic (TableRow.get col b) = Return (Num y)
              /\ if ascending then x <= y else y <= x)
  /\ (Connection.upload c9 = 9 -> Connection.upload c10240 = 10240 ->
      snd (data env {| column := Some Upload; asc := true |} [c10240; c9])
      = Return [toRow env c9; toRow env c10240]
      /\ TableRow.upload (toRow env c9) = "9 B"
      /\ TableRow.upload (toRow env c10240) = "10.00 KB"
      /\ codeUnitCompare "10.00 KB" "9 B" < 0).
Proof.
  split.
  - intros col Hcol. eexists. split; [now apply data_traffic_column |].
    split.
    + rewrite sortZ_Permutation. apply Permutation_map, sortZ_Permutation.
    + intros i j a b Hij Hi Hj.
      assert (Hrow : forall r,
                 In r (sortZ (trafficCompare col ascending)
                         (map (toRow env) (sortZ (baseCompare env) connections))) ->
                 parseTraffic (TableRow.get col r)
                 = Return (Num (decodedTraffic (TableRow.get col r)))).
      { intros r Hr.
        eapply Permutation_in in Hr; [| apply sortZ_Permutation].
        apply in_map_iff in Hr as (c & <- & _).
        destruct (toRow_traffic_number col c Hcol) as (v & Hv & ->). exact Hv. }
      exists (decodedTraffic (TableRow.get col a)), (decodedTraffic (TableRow.get col b)).
      split; [apply Hrow, list_elem_of_In; eapply list_elem_of_lookup_2; exact Hi |].
      split; [apply Hrow, list_elem_of_In; eapply list_elem_of_lookup_2; exact Hj |].
      pose proof (StronglySorted_positions _ _
                    (sortZ_sorted _ (map (toRow env) (sortZ (baseCompare env) connections))
                       (trafficCompare_consistent col ascending))
                    i j a b Hij Hi Hj) as Hle.
      unfold trafficCompare in Hle. destruct ascending; lia.
  - intros H9 H10240.
    assert (Hu9 : TableRow.upload (toRow env c9) = "9 B")
      by (cbn [toRow TableRow.upload]; rewrite H9; reflexivity).
    assert (Hu10 : TableRow.upload (toRow env c10240) = "10.00 KB")
      by (cbn [toRow TableRow.upload]; rewrite H10240; reflexivity).
    repeat split; [| exact Hu9 | exact Hu10].
    rewrite data_traffic_column by now left.
    assert (Hbase : forall a b, sortZ (baseCompare env) [a; b] = [a; b]
                                \/ sortZ (baseCompare env) [a; b] = [b; a]).
    { intros a b. simpl. destruct (0 <? baseCompare env a b); auto. }
    unfold trafficCompare.
    destruct (Hbase c10240 c9) as [-> | ->]; cbn [map sortZ insertZ TableRow.get];
      rewrite Hu9, Hu10; reflexivity.
Qed.

(** X4: the first sort only reorders the array [connections]: what it
    holds afterwards is a permutation of what it held before. *)
Lemma data_keeps_connections (sort : TableSort) (connections : list Connection.t) :
  Permutation (fst (data env sort connections)) connections.
Proof. apply sortZ_Permutation. Qed.
End ViewProperties.

(** C3: two connections with 1900 and 1100 uploaded bytes, the first one
    started first. Sorted by upload ascending, the row of 1900 bytes stays
    before the row of 1100 bytes: the cells 1.86 KB and 1.07 KB both parse
    to 1024, the comparator returns 0 and the base order stands, where a
    comparison of the byte values puts 1100 first. The sample of the
    specification, 9 bytes before 10240 bytes, comes out in order. *)
Theorem data_traffic_column_ties_within_unit (env : Imports) :
  let first := sampleConnection "a" 1000 1900 0 false in
  let second := sampleConnection "b" 2000 1100 0 false in
  let c9 := sampleConnection "c" 1000 9 0 false in
  let c10240 := sampleConnection "d" 2000 10240 0 false in
  snd (data env {| column := Some Upload; asc := true |} [first; second])
  = Return [toRow env first; toRow env second]
  /\ TableRow.upload (toRow env first) = "1.86 KB"
  /\ TableRow.upload (toRow env second) = "1.07 KB"
  /\ parseTraffic "1.86 KB" = Return (Num 1024)
  /\ parseTraffic "1.07 KB" = Return (Num 1024)
  /\ Connection.upload second < Connection.upload first
  /\ snd (data env {| column := Some Upload; asc := true |} [c10240; c9])
     = Return [toRow env c9; toRow env c10240].
Proof.
  cbv zeta. repeat split; reflexivity.
Qed.

(** C9: computing the rows reorders the array the store handed out: with
    the later connection stored first, the array holds the earlier one
    first once [data] has run, whatever the sort state. *)
Theorem data_sorts_connections_in_place (env : Imports) (sort : TableSort) :
  let late := sampleConnection "b" 2000 0 0 false in
  let early := sampleConnection "a" 1000 0 0 false in
  fst (data env sort [late; early]) = [early; late]
  /\ [early; late] <> [late; early].
Proof. split; [reflexivity | discriminate]. Qed.

(** ** The feed *)

Section Feed.
Import ConnectionStore.

Lemma reconcile_other (m : gmap string Connection.t) (r : API.Connections) (X : string) :
  API.id r <> X -> reconcile m r !! X = m !! X.
Proof.
  intros Hne. unfold reconcile.
  destruct (m !! API.id r) as [old |]; [destruct (Connection.completed old) |];
    try reflexivity; now rewrite lookup_insert_ne.
Qed.

Lemma reconcile_self (m : gmap string Connection.t) (r : API.Connections) :
  reconcile m r !! API.id r
  = match m !! API.id r with
    | None => Some (fresh r)
    | Some old => Some (if Connection.completed old then old else refresh old r)
    end.
Proof.
  unfold reconcile.
  destruct (m !! API.id r) as [old |] eqn:E; [destruct (Connection.completed old) |];
    try exact E; apply lookup_insert_eq.
Qed.

Lemma foldl_reconcile_other (l : list API.Connections)
    (m : gmap string Connection.t) (X : string) :
  ~ In X (map API.id l) -> foldl reconcile m l !! X = m !! X.
Proof.
  revert m. induction l as [| r l IH]; intros m Hnot; simpl; [reflexivity |].
  rewrite IH by (intros Hin; apply Hnot; now right).
  apply reconcile_other. intros Heq. apply Hnot. now left.
Qed.

(** Only the record that carries [X] decides what is stored for [X]. *)
Lemma foldl_reconcile_unique (l : list API.Connections)
    (m : gmap string Connection.t) (r : API.Connections) :
  NoDup (map API.id l) -> In r l ->
  foldl reconcile m l !! API.id r = reconcile m r !! API.id r.
Proof.
  revert m. induction l as [| r0 l IH]; intros m Hnd Hin; [destruct Hin |].
  simpl in Hnd. apply NoDup_cons in Hnd as [Hr0 Hnd]. simpl.
  destruct Hin as [-> | Hin].
  - apply foldl_reconcile_other. intros Hin. apply Hr0. now apply list_elem_of_In.
  - assert (Hne : API.id r0 <> API.id r).
    { intros Heq. apply Hr0. rewrite Heq. apply list_elem_of_In, in_map. exact Hin. }
    rewrite (IH _ Hnd Hin), !reconcile_self, (reconcile_other _ _ _ Hne).
    reflexivity.
Qed.

Lemma closeAbsent_lookup (present : gset string) (m : gmap string Connection.t)
    (X : string) :
  closeAbsent present m !! X
  = (fun c => if decide (X ∈ present) then c
              else if Connection.completed c then c else close c) <$> m !! X.
Proof.
  unfold closeAbsent. rewrite map_lookup_imap.
  destruct (m !! X); reflexivity.
Qed.

Lemma purge_lookup_active (m : gmap string Connection.t) (X : string) (c : Connection.t) :
  m !! X = Some c -> Connection.completed c = false -> purge m !! X = Some c.
Proof. intros Hm Hc. unfold purge. apply map_lookup_filter_Some. now split. Qed.

Lemma purge_lookup_None (m : gmap string Connection.t) (X : string) :
  m !! X = None -> purge m !! X = None.
Proof. intros Hm. unfold purge. apply map_lookup_filter_None. now left. Qed.

Lemma recordOf_In (X : string) (snapshot : API.Snapshot) (r : API.Connections) :
  recordOf X snapshot = Some r -> In r (API.connections snapshot) /\ API.id r = X.
Proof.
  unfold recordOf. intros H. apply find_some in H as [Hin Heq].
  split; [exact Hin | now apply String.eqb_eq].
Qed.

Lemma recordOf_None (X : string) (snapshot : API.Snapshot) :
  recordOf X snapshot = None -> ~ In X (map API.id (API.connections snapshot)).
Proof.
  unfold recordOf. intros H Hin. apply in_map_iff in Hin as (r & Heq & Hin).
  pose proof (find_none _ _ H r Hin) as Hr. simpl in Hr.
  apply String.eqb_neq in Hr. contradiction.
Qed.

(** What [feed] stores for an id that the snapshot carries: the record
    reconciled, untouched by steps 4 and 5 while it is active. *)
Lemma feed_lookup_present (incoming : list API.Connections) (s : t)
    (r : API.Connections) (c : Connection.t) :
  NoDup (map API.id incoming) -> In r incoming ->
  reconcile (mapping s) r !! API.id r = Some c ->
  Connection.completed c = false ->
  mapping (feed incoming s) !! API.id r = Some c.
Proof.
  intros Hnd Hin Hrec Hactive. unfold feed. cbn [mapping].
  assert (Hclosed : closeAbsent (list_to_set (map API.id incoming))
                      (foldl reconcile (mapping s) incoming) !! API.id r = Some c).
  { rewrite closeAbsent_lookup, (foldl_reconcile_unique _ _ _ Hnd Hin), Hrec. simpl.
    rewrite decide_True; [reflexivity |].
    apply elem_of_list_to_set, list_elem_of_In, in_map. exact Hin. }
  destruct (retainClosed s); [exact Hclosed | now apply purge_lookup_active].
Qed.

Lemma feed_first (incoming : list API.Connections) (s : t) (r : API.Connections) :
  NoDup (map API.id incoming) -> In r incoming ->
  mapping s !! API.id r = None ->
  mapping (feed incoming s) !! API.id r = Some (fresh r).
Proof.
  intros Hnd Hin Hnone. apply feed_lookup_present; try assumption; [| reflexivity].
  now rewrite reconcile_self, Hnone.
Qed.

Lemma feed_next (incoming : list API.Connections) (s : t)
    (r : API.Connections) (old : Connection.t) :
  NoDup (map API.id incoming) -> In r incoming ->
  mapping s !! API.id r = Some old -> Connection.completed old = false ->
  mapping (feed incoming s) !! API.id r = Some (refresh old r).
Proof.
  intros Hnd Hin Hold Hactive. apply feed_lookup_present; try assumption; [| reflexivity].
  now rewrite reconcile_self, Hold, Hactive.
Qed.

(** An id that is unknown and not in the snapshot stays unknown. *)
Lemma feed_unknown (incoming : list API.Connections) (s : t) (X : string) :
  ~ In X (map API.id incoming) ->
  mapping s !! X = None ->
  mapping (feed incoming s) !! X = None.
Proof.
  intros Hnot Hnone. unfold feed. cbn [mapping].
  assert (Hclosed : closeAbsent (list_to_set (map API.id incoming))
                      (foldl reconcile (mapping s) incoming) !! X = None).
  { rewrite closeAbsent_lookup, (foldl_reconcile_other _ _ _ Hnot), Hnone. reflexivity. }
  destruct (retainClosed s); [exact Hclosed | now apply purge_lookup_None].
Qed.

Lemma handleConnection_snoc (snapshots : list API.Snapshot) (snapshot : API.Snapshot)
    (st : ViewState) :
  handleConnection (snapshots ++ [snapshot]) st
  = handleSnapshot (handleConnection snapshots st) snapshot.
Proof. unfold handleConnection. now rewrite foldl_app. Qed.

Lemma handleConnection_unknown (pre : list API.Snapshot) (st : ViewState) (X : string) :
  Forall (fun s => recordOf X s = None) pre ->
  mapping (store st) !! X = None ->
  mapping (store (handleConnection pre st)) !! X = None.
Proof.
  revert st. induction pre as [| s pre IH]; intros st Hpre Hnone; [exact Hnone |].
  apply Forall_cons in Hpre as [Hs Hpre].
  apply (IH (handleSnapshot st s) Hpre). cbn [handleSnapshot store].
  apply feed_unknown; [now apply recordOf_None | exact Hnone].
Qed.
End Feed.

Section Speed.
Import ConnectionStore.

Lemma handleConnection_app (pre run : list API.Snapshot) (st : ViewState) :
  handleConnection (pre ++ run) st = handleConnection run (handleConnection pre st).
Proof. unfold handleConnection. apply foldl_app. Qed.

Lemma handleSnapshot_first (st : ViewState) (s : API.Snapshot)
    (r : API.Connections) (X : string) :
  uniqueIds s -> recordOf X s = Some r ->
  mapping (store st) !! X = None ->
  mapping (store (handleSnapshot st s)) !! X = Some (fresh r).
Proof.
  intros Hu Hr Hnone. apply recordOf_In in Hr as [Hin <-].
  cbn [handleSnapshot store]. now apply feed_first.
Qed.

Lemma handleSnapshot_next (st : ViewState) (s : API.Snapshot)
    (r : API.Connections) (X : string) (old : Connection.t) :
  uniqueIds s -> recordOf X s = Some r ->
  mapping (store st) !! X = Some old -> Connection.completed old = false ->
  mapping (store (handleSnapshot st s)) !! X = Some (refresh old r).
Proof.
  intros Hu Hr Hold Hactive. apply recordOf_In in Hr as [Hin <-].
  cbn [handleSnapshot store]. now apply feed_next.
Qed.

(** While [X] is in every snapshot, the store follows its counters. *)
Lemma handleConnection_tracks (X : string) (st : ViewState) (run : list API.Snapshot) :
  mapping (store st) !! X = None ->
  Forall uniqueIds run ->
  Forall (fun s => is_Some (recordOf X s)) run ->
  forall (k : nat) (s : API.Snapshot) (r : API.Connections),
    run !! k = Some s -> recordOf X s = Some r ->
    tracks X r (store (handleConnection (take (S k) run) st)).
Proof.
  intros Hnone Hu Hx. induction k as [| k IH]; intros s r Hs Hr.
  - rewrite (take_S_r _ _ _ Hs), handleConnection_snoc. cbn [take handleConnection foldl].
    exists (fresh r). split; [| repeat split].
    apply handleSnapshot_first; try assumption.
    rewrite Forall_forall in Hu. apply Hu. eapply list_elem_of_lookup_2. exact Hs.
  - rewrite (take_S_r _ _ _ Hs), handleConnection_snoc.
    destruct (run !! k) as [s0 |] eqn:Hs0.
    2: { apply lookup_ge_None in Hs0. apply lookup_lt_Some in Hs. lia. }
    assert (Hr0 : is_Some (recordOf X s0)).
    { rewrite Forall_forall in Hx. apply Hx. eapply list_elem_of_lookup_2. exact Hs0. }
    destruct Hr0 as [r0 Hr0].
    destruct (IH s0 r0 eq_refl Hr0) as (old & Hold & Hactive & _ & _).
    exists (refresh old r). split; [| repeat split].
    apply handleSnapshot_next; try assumption.
    rewrite Forall_forall in Hu. apply Hu. eapply list_elem_of_lookup_2. exact Hs.
Qed.

(** C1: let the snapshots [pre] not mention [X], let [st] be a state in
    which [X] is unknown, and let every snapshot of [run] carry [X] once.
    After the first snapshot of [run] the stored speed of [X] is (0,0);
    after snapshot n + 1 of [run], when the counters of [X] did not
    decrease from snapshot n, it is the pair of their differences. *)
Theorem speed_is_counter_delta (X : string) (st : ViewState)
    (pre run : list API.Snapshot) :
  mapping (store st) !! X = None ->
  Forall (fun s => recordOf X s = None) pre ->
  Forall uniqueIds run ->
  Forall (fun s => is_Some (recordOf X s)) run ->
  (forall first,
      run !! 0%nat = Some first ->
      speedOf X (store (handleConnection (pre ++ take 1 run) st)) = Some (0, 0))
  /\ (forall (n : nat) (prev cur : API.Snapshot) (rp rc : API.Connections),
        run !! n = Some prev -> run !! S n = Some cur ->
        recordOf X prev = Some rp -> recordOf X cur = Some rc ->
        API.upload rp <= API.upload rc ->
        API.download rp <= API.download rc ->
        speedOf X (store (handleConnection (pre ++ take (S (S n)) run) st))
        = Some (API.upload rc - API.upload rp, API.download rc - API.download rp)).
Proof.
  intros Hnone Hpre Hu Hx.
  pose proof (handleConnection_unknown pre st X Hpre Hnone) as Hnone'.
  split.
  - intros first Hfirst. rewrite handleConnection_app.
    assert (Hr : is_Some (recordOf X first)).
    { rewrite Forall_forall in Hx. apply Hx. eapply list_elem_of_lookup_2. exact Hfirst. }
    destruct Hr as [r Hr].
    rewrite (take_S_r _ _ _ Hfirst), handleConnection_snoc. cbn [take handleConnection foldl].
    unfold speedOf. rewrite (handleSnapshot_first _ _ r); try assumption; [reflexivity |].
    rewrite Forall_forall in Hu. apply Hu. eapply list_elem_of_lookup_2. exact Hfirst.
  - intros n prev cur rp rc Hprev Hcur Hrp Hrc Hup Hdown.
    rewrite handleConnection_app, (take_S_r _ _ _ Hcur), handleConnection_snoc.
    destruct (handleConnection_tracks X _ run Hnone' Hu Hx n prev rp Hprev Hrp)
      as (old & Hold & Hactive & Hou & Hod).
    unfold speedOf. rewrite (handleSnapshot_next _ _ rc X old); try assumption.
    + cbn. rewrite Hou, Hod. f_equal. f_equal; lia.
    + rewrite Forall_forall in Hu. apply Hu. eapply list_elem_of_lookup_2. exact Hcur.
Qed.
End Speed.

(** ** The properties on sample inputs *)

Lemma codeUnitCompare_consistent : consistent codeUnitCompare.
Proof.
  assert (Hgt : forall a b, 0 < codeUnitCompare a b <-> String.compare a b = Gt).
  { intros a b. unfold codeUnitCompare. destruct (String.compare a b); split; (lia || congruence). }
  assert (Hle : forall a b, codeUnitCompare a b <= 0 <-> String.compare a b <> Gt).
  { intros a b. unfold codeUnitCompare. destruct (String.compare a b); split; (lia || congruence). }
  split.
  - intros a b H. apply Hgt in H. apply Hle.
    rewrite String.compare_antisym, H. discriminate.
  - intros a b c. rewrite !Hle. clear Hgt Hle. revert b c.
    induction a as [| x a IH]; intros [| y b] [| z c]; simpl; try congruence.
    unfold Ascii.compare.
    destruct (N.compare_spec (N_of_ascii x) (N_of_ascii y)) as [Hxy | Hxy | Hxy],
             (N.compare_spec (N_of_ascii y) (N_of_ascii z)) as [Hyz | Hyz | Hyz],
             (N.compare_spec (N_of_ascii x) (N_of_ascii z)) as [Hxz | Hxz | Hxz];
      try congruence; try lia.
    apply IH.
Qed.

Lemma data_default_order_witness :
  exists ordered,
    snd (data sampleImports initialSort sampleConnections)
    = Return (map (toRow sampleImports) ordered)
    /\ Permutation ordered sampleConnections
    /\ forall (i j : nat) (a b : Connection.t),
         (i < j)%nat -> ordered !! i = Some a -> ordered !! j = Some b ->
         baseOrder sampleImports a b.
Proof.
  exact (data_default_order sampleImports initialSort sampleConnections
           codeUnitCompare_consistent eq_refl).
Defined.

(** The sample connections in base order: the active ones by start and
    id, the completed one last. *)
Lemma data_default_order_sample :
  map Connection.id (fst (data sampleImports initialSort sampleConnections))
  = ["a"; "b"; "c"; "d"].
Proof. reflexivity. Qed.

Lemma speed_is_counter_delta_witness :
  ConnectionStore.speedOf "c1"
    (store (handleConnection (samplePre ++ take 1 sampleRun) initialState))
  = Some (0, 0)
  /\ ConnectionStore.speedOf "c1"
       (store (handleConnection (samplePre ++ take 2 sampleRun) initialState))
     = Some (50, 60)
  /\ ConnectionStore.speedOf "c1"
       (store (handleConnection (samplePre ++ take 3 sampleRun) initialState))
     = Some (0, 40).
Proof.
  assert (Hunknown : ConnectionStore.mapping (store initialState) !! "c1" = None)
    by reflexivity.
  assert (Hpre : Forall (fun s => recordOf "c1" s = None) samplePre)
    by (repeat constructor).
  assert (Hunique : Forall uniqueIds sampleRun).
  { refine (bool_decide_unpack _ _). vm_compute. exact I. }
  assert (Hpresent : Forall (fun s => is_Some (recordOf "c1" s)) sampleRun).
  { repeat constructor; eexists; reflexivity. }
  destruct (speed_is_counter_delta "c1" initialState samplePre sampleRun
              Hunknown Hpre Hunique Hpresent) as [Hfirst Hnext].
  split; [exact (Hfirst _ eq_refl) |].
  split.
  - refine (Hnext 0%nat _ _ (sampleRecord "c1" 100 200) (sampleRecord "c1" 150 260)
              eq_refl eq_refl eq_refl eq_refl _ _); simpl; lia.
  - refine (Hnext 1%nat _ _ (sampleRecord "c1" 150 260) (sampleRecord "c1" 150 300)
              eq_refl eq_refl eq_refl eq_refl _ _); simpl; lia.
Defined.

Lemma formatTraffic_below_4TB_witness :
  exists (k : nat) (unit : string),
    trafficUnit !! k = Some unit
    /\ (k = 0%nat -> 1536 < 1024)
    /\ (k <> 0%nat -> Zpos (unitSize k) <= 1536)
    /\ (k <> 4%nat -> 1536 < Zpos (unitSize (S k)))
    /\ formatTraffic 1536
       = (if (k =? 0)%nat then integerToString 1536 else toFixed2 (1536 # unitSize k))
           ++ " " ++ unit.
Proof. apply (formatTraffic_below_4TB 1536). lia. Defined.

Lemma parseTraffic_formatTraffic_bytes_witness :
  parseTraffic (formatTraffic 512) = Return (Num 512).
Proof. apply (parseTraffic_formatTraffic_bytes 512); [lia | reflexivity]. Defined.

Lemma handleSort_other_column_witness :
  handleSort (Some Upload) {| column := Some Host; asc := true |}
  = {| column := Some Upload; asc := true |}.
Proof. apply (handleSort_other_column (Some Upload)). discriminate. Defined.

Lemma parseTraffic_formatTraffic_whole_units_witness :
  exists w,
    parseTraffic (formatTraffic 1536) = Return (Num (w * Zpos (unitSize (magnitude 1536))))
    /\ 1536 / Zpos (unitSize (magnitude 1536)) <= w
       <= 1536 / Zpos (unitSize (magnitude 1536)) + 1.
Proof. apply (parseTraffic_formatTraffic_whole_units 1536). lia. Defined.

(** * Further properties *)

(** ** Header clicks *)

Lemma handleClick_invariant (id : Columns) (sort : TableSort) :
  (column sort = None -> asc sort = true) ->
  column sort ∈ None :: sortableColumns ->
  (column (handleClick (Some id) sort) = None -> asc (handleClick (Some id) sort) = true)
  /\ column (handleClick (Some id) sort) ∈ None :: sortableColumns.
Proof.
  intros Hasc Hcol. unfold handleClick.
  case_decide as Hsortable; [| now split].
  unfold handleSort. case_decide as Heq.
  - destruct (asc sort) eqn:Hdir; cbn [setSort_asc column asc].
    + split; [| exact Hcol]. intros Hnone. rewrite <- Heq in Hnone. discriminate.
    + split; [reflexivity | left].
  - cbn [setSort_column column asc]. split; [discriminate | now right].
Qed.

Lemma clickHeaders_reachable (ids : list Columns) :
  (column (clickHeaders ids initialSort) = None ->
   asc (clickHeaders ids initialSort) = true)
  /\ column (clickHeaders ids initialSort) ∈ None :: sortableColumns.
Proof.
  unfold clickHeaders. induction ids as [| id ids IH] using rev_ind.
  - split; [reflexivity | left].
  - rewrite foldl_app. cbn [foldl]. destruct IH as [Hasc Hcol].
    now apply handleClick_invariant.
Qed.

(** X8: whatever headers are clicked, starting with no sort active, the
    sort column is empty or one of the sortable columns, and while it is
    empty the direction flag is ascending, so the first click on a
    sortable column in that state always sorts ascending. *)
Theorem clickHeaders_invariant (ids : list Columns) :
  let sort := clickHeaders ids initialSort in
  column sort ∈ None :: sortableColumns
  /\ (column sort = None -> asc sort = true)
  /\ (column sort = None ->
      forall id, Some id ∈ sortableColumns ->
                 handleClick (Some id) sort = {| column := Some id; asc := true |}).
Proof.
  cbv zeta. destruct (clickHeaders_reachable ids) as [Hasc Hcol].
  split; [exact Hcol |]. split; [exact Hasc |].
  intros Hnone id Hid. unfold handleClick, handleSort.
  rewrite decide_True by exact Hid. rewrite Hnone.
  rewrite decide_False by discriminate.
  unfold setSort_column. f_equal. exact (Hasc Hnone).
Qed.

(** X5: after any run of header clicks that starts with no sort active,
    a header outside the sortable set shows no arrow, and no two headers
    show an arrow at once. *)
Theorem headerArrow_after_clicks (ids : list Columns) :
  let sort := clickHeaders ids initialSort in
  (forall id, Some id ∉ sortableColumns -> headerArrow id sort = None)
  /\ (forall id1 id2,
        is_Some (headerArrow id1 sort) -> is_Some (headerArrow id2 sort) -> id1 = id2).
Proof.
  cbv zeta. destruct (clickHeaders_reachable ids) as [_ Hcol]. split.
  - intros id Hid. unfold headerArrow. case_decide as Heq; [| reflexivity].
    rewrite Heq in Hcol. apply elem_of_cons in Hcol as [Hnone | Hin];
      [discriminate | contradiction].
  - intros id1 id2 H1 H2. unfold headerArrow in *.
    do 2 case_decide; try (now destruct H1 as [? [=]]); try (now destruct H2 as [? [=]]).
    congruence.
Qed.

(** ** Totals *)

(** X10: a batch overwrites the totals: after a batch that is not empty
    they are the totals of its last snapshot, whatever they were before
    and whatever the earlier snapshots held; an empty batch changes
    nothing. *)
Theorem handleConnection_totals (snapshots : list API.Snapshot)
    (last : API.Snapshot) (st : ViewState) :
  traffic (handleConnection (snapshots ++ [last]) st)
  = {| uploadTotal := API.uploadTotal last; downloadTotal := API.downloadTotal last |}
  /\ handleConnection [] st = st.
Proof.
  split; [| reflexivity].
  unfold handleConnection. rewrite foldl_app. reflexivity.
Qed.

(** ** Header clicks in a run *)

(** X9: the clicks on headers outside the sortable set (chains, speed,
    time) can be left out of any run of clicks: the sort state ends up
    the same. *)
Theorem clickHeaders_sortable_only (ids : list Columns) (sort : TableSort) :
  clickHeaders ids sort
  = clickHeaders (filter (fun id => Some id ∈ sortableColumns) ids) sort.
Proof.
  unfold clickHeaders. revert sort.
  induction ids as [| id ids IH]; intros sort; [reflexivity |].
  rewrite filter_cons. cbn [foldl]. case_decide as Hid.
  - cbn [foldl]. apply IH.
  - unfold handleClick at 2. rewrite decide_False by exact Hid. apply IH.
Qed.

(** ** Decoding a well-formed text *)

Lemma notSpace_upperChar (c : ascii) : notSpace (upperChar c) = notSpace c.
Proof. destruct c as [[] [] [] [] [] [] [] []]; reflexivity. Qed.

Lemma toUpperCase_notSpace (s : string) :
  allChars notSpace (toUpperCase s) = allChars notSpace s.
Proof.
  induction s as [| c s IH]; [reflexivity |].
  cbn [toUpperCase allChars]. now rewrite notSpace_upperChar, IH.
Qed.

Lemma indexOf_lookup (k : nat) (unit : string) :
  trafficUnit !! k = Some unit ->
  indexOf trafficUnit unit = Z.of_nat k /\ allChars notSpace unit = true.
Proof.
  do 5 (destruct k as [| k]; [intros [= <-]; split; vm_compute; reflexivity |]).
  intros H. discriminate H.
Qed.

(** X16: a printed integer below 2^53 in magnitude, one space and a
    traffic unit in any mix of upper and lower case decode to the integer
    times 1024 to the index of the unit. *)
Theorem parseTraffic_decodes (n : Z) (k : nat) (unit text : string) :
  - 2 ^ 53 < n < 2 ^ 53 ->
  trafficUnit !! k = Some unit ->
  toUpperCase text = unit ->
  parseTraffic (integerToString n ++ " " ++ text)
  = Return (Num (n * 1024 ^ Z.of_nat k)).
Proof.
  intros _ Hk Hcase. destruct (indexOf_lookup k unit Hk) as [Hidx Hunit].
  assert (Htext : allChars notSpace text = true)
    by (rewrite <- toUpperCase_notSpace, Hcase; exact Hunit).
  unfold parseTraffic.
  change (integerToString n ++ " " ++ text)
    with (integerToString n ++ String " " text).
  rewrite (split_app " " _ _ (integerToString_notSpace n)).
  rewrite (split_no_separator " " text Htext).
  rewrite Hcase, Hidx, parseInt_integerToString_exact, scaleUp_Num by lia.
  reflexivity.
Qed.

Lemma parseTraffic_decodes_witness :
  parseTraffic (integerToString 3 ++ " " ++ "mb") = Return (Num (3 * 1024 ^ Z.of_nat 2)).
Proof. apply (parseTraffic_decodes 3 2 "MB" "mb"); [lia | reflexivity | reflexivity]. Defined.

(** ** Negative counts and the 32-bit wrap *)

Lemma ToInt32_zero_mod (z : Z) : (ToInt32 z =? 0) = (z mod 2 ^ 32 =? 0).
Proof.
  unfold ToInt32. cbv zeta.
  pose proof (Z.mod_pos_bound z (2 ^ 32) ltac:(lia)) as Hm.
  destruct (Z.ltb_spec (z mod 2 ^ 32) (2 ^ 31)); [reflexivity |].
  destruct (Z.eqb_spec (z mod 2 ^ 32 - 2 ^ 32) 0), (Z.eqb_spec (z mod 2 ^ 32) 0);
    try reflexivity; lia.
Qed.

Lemma doubleTilde_opp (x : Z) (d : positive) :
  (doubleTilde (- x # d) =? 0) = (doubleTilde (x # d) =? 0).
Proof.
  unfold doubleTilde, truncate. cbn [Qnum Qden].
  rewrite !ToInt32_zero_mod, Z.quot_opp_l by lia.
  set (q := Z.quot x (Zpos d)).
  assert (Hiff : (- q) mod 2 ^ 32 = 0 <-> q mod 2 ^ 32 = 0).
  { rewrite !Z.mod_divide by lia. apply Z.divide_opp_r. }
  destruct (Z.eqb_spec ((- q) mod 2 ^ 32) 0), (Z.eqb_spec (q mod 2 ^ 32) 0);
    try reflexivity; tauto.
Qed.

(** The loop runs alike on a count and on its opposite. *)
Lemma formatLoop_opp (budget : nat) (x : Z) (d : positive) (idx : nat) :
  exists d',
    formatLoop budget (x # d) idx = (x # d', snd (formatLoop budget (x # d) idx))
    /\ formatLoop budget (- x # d) idx = (- x # d', snd (formatLoop budget (x # d) idx)).
Proof.
  revert d idx. induction budget as [| budget IH]; intros d idx.
  - exists d. split; reflexivity.
  - cbn [formatLoop]. rewrite !Qdiv_1024, doubleTilde_opp.
    destruct (doubleTilde (x # d * 1024) =? 0).
    + exists d. split; reflexivity.
    + apply IH.
Qed.

Lemma toFixed2_opp (x : Z) (d : positive) :
  0 < x -> toFixed2 (- x # d) = "-" ++ toFixed2 (x # d).
Proof.
  intros Hx. unfold toFixed2. cbv zeta. cbn [Qnum].
  destruct (Z.ltb_spec (- x) 0); [| lia].
  destruct (Z.ltb_spec x 0); [lia |].
  unfold Qabs. rewrite Z.abs_opp. reflexivity.
Qed.

(** X17: a negative count prints as the minus sign followed by the text
    of its magnitude: the loop, the rounding and the suffix are those of
    the magnitude. *)
Theorem formatTraffic_negative (num : Z) :
  0 < num -> formatTraffic (- num) = "-" ++ formatTraffic num.
Proof.
  intros Hnum. unfold formatTraffic, inject_Z.
  destruct (formatLoop_opp (length trafficUnit) num 1 0) as (d' & Hpos & Hneg).
  rewrite Hpos, Hneg.
  destruct (snd (formatLoop (length trafficUnit) (num # 1) 0) =? 0)%nat.
  - unfold integerToString.
    destruct (Z.ltb_spec (- num) 0); [| lia].
    destruct (Z.ltb_spec num 0); [lia |].
    rewrite Z.opp_involutive. reflexivity.
  - rewrite (toFixed2_opp num d' Hnum). reflexivity.
Qed.

Lemma formatTraffic_negative_witness :
  formatTraffic (- 2048) = "-" ++ formatTraffic 2048.
Proof. apply (formatTraffic_negative 2048). lia. Defined.

(** X6: for a count below 2^53, when the whole quotient of the count by
    1024 is a multiple of 2^32, the 32-bit wrap of [~~] ends the loop at
    once and the count is printed in bytes; every count from 2^42 to
    2^42 + 1023 is such a count. *)
Theorem formatTraffic_wrap (num : Z) :
  0 <= num < 2 ^ 53 ->
  (num / 1024) mod 2 ^ 32 = 0 ->
  formatTraffic num = integerToString num ++ " B".
Proof.
  intros Hnum Hwrap. unfold formatTraffic, inject_Z.
  cbn [length trafficUnit formatLoop]. rewrite Qdiv_1024.
  unfold doubleTilde, truncate. cbn [Qnum Qden].
  rewrite ToInt32_zero_mod, Z.quot_div_nonneg by lia.
  change (Z.pos (1 * 1024)) with 1024. rewrite Hwrap. reflexivity.
Qed.

Lemma formatTraffic_wrap_witness :
  formatTraffic (2 ^ 42 + 1023) = integerToString (2 ^ 42 + 1023) ++ " B".
Proof. apply (formatTraffic_wrap (2 ^ 42 + 1023)); [lia | reflexivity]. Defined.

(** ** The characters of a formatted value *)

Lemma digitChar_allChars (P : ascii -> bool) (d : Z) :
  allChars P "0123456789" = true -> P (digitChar (d mod 10)) = true.
Proof.
  intros H. cbn [allChars] in H.
  repeat (apply andb_prop in H as [? H]).
  pose proof (Z.mod_pos_bound d 10 ltac:(lia)) as Hd.
  assert (Hcases : d mod 10 = 0 \/ d mod 10 = 1 \/ d mod 10 = 2 \/ d mod 10 = 3
                   \/ d mod 10 = 4 \/ d mod 10 = 5 \/ d mod 10 = 6 \/ d mod 10 = 7
                   \/ d mod 10 = 8 \/ d mod 10 = 9) by lia.
  repeat destruct Hcases as [-> | Hcases]; try rewrite Hcases; assumption.
Qed.

(** Every character [formatTraffic] can print is one of the digits, the
    sign, the point, the space and the letters of its suffixes. *)
Lemma formatTraffic_allChars (P : ascii -> bool) (num : Z) :
  allChars P "0123456789" = true ->
  allChars P "-. BKMGTundefi" = true ->
  allChars P (formatTraffic num) = true.
Proof.
  intros Hdigits Hrest.
  assert (Hdigit : forall d, P (digitChar (d mod 10)) = true)
    by (intros d; now apply digitChar_allChars).
  cbn [allChars] in Hrest. repeat (apply andb_prop in Hrest as [? Hrest]).
  unfold formatTraffic.
  destruct (formatLoop (length trafficUnit) (inject_Z num) 0) as [scaled idx].
  rewrite !allChars_app.
  assert (Hunit : allChars P (unitText (trafficUnit !! idx)) = true).
  { do 5 (destruct idx as [| idx];
          [cbn; repeat (apply andb_true_intro; split); (assumption || reflexivity) |]).
    cbn. repeat (apply andb_true_intro; split); (assumption || reflexivity). }
  rewrite Hunit. cbn [allChars]. rewrite andb_true_r.
  apply andb_true_intro. split; [| apply andb_true_intro; split; [assumption | reflexivity]].
  destruct (idx =? 0)%nat.
  - unfold integerToString. destruct (num <? 0).
    + change ("-" ++ decimal (- num)) with (String "-" (decimal (- num))).
      cbn [allChars]. rewrite decimal_allChars by exact Hdigit.
      apply andb_true_intro. now split.
    + now apply decimal_allChars.
  - unfold toFixed2. cbv zeta.
    rewrite !allChars_app, decimal_allChars by exact Hdigit.
    cbn [allChars]. rewrite !Hdigit.
    destruct (Qnum scaled <? 0); cbn [allChars];
      repeat (apply andb_true_intro; split); (assumption || reflexivity).
Qed.

Lemma formatTraffic_notArrowLead (num : Z) :
  allChars notArrowLead (formatTraffic num) = true.
Proof. apply formatTraffic_allChars; reflexivity. Qed.

(** ** [includes] *)

Lemma includes_lead_absent (c : ascii) (needle hay : string) :
  allChars (fun x => negb (Ascii.eqb x c)) hay = true ->
  includes (String c needle) hay = false.
Proof.
  induction hay as [| h hay IH]; intros H; [reflexivity |].
  cbn [allChars] in H. apply andb_prop in H as [Hh Hhay].
  cbn [includes String.prefix]. rewrite (IH Hhay), orb_false_r.
  destruct (ascii_dec c h) as [-> | _]; [| reflexivity].
  now rewrite Ascii.eqb_refl in Hh.
Qed.

Lemma includes_cons (needle : string) (c : ascii) (hay : string) :
  includes needle hay = true -> includes needle (String c hay) = true.
Proof. intros H. cbn [includes]. rewrite H. apply orb_true_r. Qed.

Lemma includes_app_r (needle a b : string) :
  includes needle b = true -> includes needle (a ++ b) = true.
Proof.
  intros H. induction a as [| c a IH]; [exact H |].
  change (String c a ++ b) with (String c (a ++ b)). now apply includes_cons.
Qed.

(** X11: the text of [formatSpeed] shows the upload arrow exactly when
    the upload rate is not zero and the download arrow exactly when the
    download rate is not zero, and it is the dash exactly when both rates
    are zero. *)
Theorem formatSpeed_arrows (upload download : Z) :
  includes "↑" (formatSpeed upload download) = negb (upload =? 0)
  /\ includes "↓" (formatSpeed upload download) = negb (download =? 0)
  /\ (formatSpeed upload download = "-" <-> upload = 0 /\ download = 0).
Proof.
  assert (Htail : forall num,
             allChars notArrowLead (" " ++ formatTraffic num ++ "/s") = true).
  { intros num. rewrite !allChars_app, formatTraffic_notArrowLead. reflexivity. }
  unfold formatSpeed.
  destruct (Z.eqb_spec upload 0) as [Hu | Hu], (Z.eqb_spec download 0) as [Hd | Hd];
    cbn [andb negb].
  - repeat split; auto.
  - split; [| split; [reflexivity | split; [discriminate | tauto]]].
    change ("↓ " ++ formatTraffic download ++ "/s")
      with (String arrowLead (String (ascii_of_nat 134) (String (ascii_of_nat 147)
              (" " ++ formatTraffic download ++ "/s")))).
    cbn [includes String.prefix].
    rewrite (includes_lead_absent arrowLead _ _ (Htail download)). reflexivity.
  - split; [reflexivity | split; [| split; [discriminate | tauto]]].
    change ("↑ " ++ formatTraffic upload ++ "/s")
      with (String arrowLead (String (ascii_of_nat 134) (String (ascii_of_nat 145)
              (" " ++ formatTraffic upload ++ "/s")))).
    cbn [includes String.prefix].
    rewrite (includes_lead_absent arrowLead _ _ (Htail upload)). reflexivity.
  - split; [reflexivity | split; [| split; [discriminate | tauto]]].
    apply (includes_app_r "↓" "↑ "), (includes_app_r "↓" (formatTraffic upload)).
    do 3 apply includes_cons. reflexivity.
Qed.

(** ** The second sort *)

Section StableSort.
Context {A : Type}.

(** An element is never moved past an element of its own class: classes
    are given by a predicate that the comparator separates. *)
Lemma insertZ_filter (cmp : A -> A -> Z) (P : A -> Prop) `{!forall x, Decision (P x)}
    (x : A) (l : list A) :
  (P x -> forall y, 0 < cmp x y -> ~ P y) ->
  filter P (insertZ cmp x l) = filter P (x :: l).
Proof.
  intros Hsep. induction l as [| y l IH]; [reflexivity |].
  cbn [insertZ]. destruct (Z.ltb_spec 0 (cmp x y)) as [Hgt | _]; [| reflexivity].
  rewrite (filter_cons P y), IH, !(filter_cons P x), (filter_cons P y).
  destruct (decide (P x)) as [Hx | Hx]; [| reflexivity].
  destruct (decide (P y)) as [Hy | Hy]; [| reflexivity].
  exfalso. exact (Hsep Hx y Hgt Hy).
Qed.

Lemma sortZ_filter (cmp : A -> A -> Z) (P : A -> Prop) `{!forall x, Decision (P x)}
    (l : list A) :
  (forall x y, P x -> 0 < cmp x y -> ~ P y) ->
  filter P (sortZ cmp l) = filter P l.
Proof.
  intros Hsep. induction l as [| x l IH]; [reflexivity |].
  cbn [sortZ]. rewrite insertZ_filter by (intros Hx y; now apply Hsep).
  now rewrite !filter_cons, IH.
Qed.

(** An array that is in order already is left as it is. *)
Lemma sortZ_sorted_fixed (cmp : A -> A -> Z) (l : list A) :
  StronglySorted (fun a b => cmp a b <= 0) l -> sortZ cmp l = l.
Proof.
  induction 1 as [| x l Hsorted IH Hall]; [reflexivity |].
  cbn [sortZ]. rewrite IH. destruct l as [| y l]; [reflexivity |].
  cbn [insertZ]. apply Forall_cons in Hall as [Hxy _].
  destruct (Z.ltb_spec 0 (cmp x y)); [lia | reflexivity].
Qed.
End StableSort.

Section SecondSort.
Variable env : Imports.

Lemma textCompare_consistent (col : Columns) (ascending : bool) :
  consistent (localeCompare env) -> consistent (textCompare env col ascending).
Proof.
  intros [Htotal Htrans]. unfold textCompare. destruct ascending; split.
  - intros a b. apply Htotal.
  - intros a b c. apply Htrans.
  - intros a b. apply Htotal.
  - intros a b c H1 H2. eapply Htrans; eassumption.
Qed.

Lemma rowOrder_consistent (sort : TableSort) :
  consistent (localeCompare env) -> consistent (rowOrder env sort).
Proof.
  intros Hlc. unfold rowOrder. destruct (column sort) as [col |].
  - case_decide.
    + apply trafficCompare_consistent.
    + now apply textCompare_consistent.
  - split; intros; lia.
Qed.

(** On projected rows the second comparator returns [rowOrder] and does
    not throw. *)
Lemma rowCompare_rowOrder (sort : TableSort) (a b : Connection.t) :
  rowCompare env sort (toRow env a) (toRow env b)
  = Return (Num (rowOrder env sort (toRow env a) (toRow env b))).
Proof.
  destruct sort as [[col |] ascending]; [| reflexivity].
  unfold rowOrder. cbn [column asc]. case_decide as Hcol.
  - apply rowCompare_traffic. tauto.
  - unfold rowCompare, textCompare. cbn [column asc].
    rewrite decide_False by exact Hcol. now destruct ascending.
Qed.

Lemma data_rowOrder (sort : TableSort) (connections : list Connection.t) :
  snd (data env sort connections)
  = Return (sortZ (rowOrder env sort)
              (map (toRow env) (sortZ (baseCompare env) connections))).
Proof.
  unfold data. cbn [snd]. apply Array_sort_pure. intros a b Ha Hb.
  apply in_map_iff in Ha as (a' & <- & _). apply in_map_iff in Hb as (b' & <- & _).
  apply rowCompare_rowOrder.
Qed.

(** X12: whatever the sort state, [data] does not throw and yields the
    projections of the connections, each one once. *)
Theorem data_total (sort : TableSort) (connections : list Connection.t) :
  exists rows,
    snd (data env sort connections) = Return rows
    /\ Permutation rows (map (toRow env) connections)
    /\ length rows = length connections.
Proof.
  eexists. split; [apply data_rowOrder |].
  assert (Hperm : Permutation
                    (sortZ (rowOrder env sort)
                       (map (toRow env) (sortZ (baseCompare env) connections)))
                    (map (toRow env) connections)).
  { rewrite sortZ_Permutation. apply Permutation_map, sortZ_Permutation. }
  split; [exact Hperm |].
  rewrite (Permutation_length Hperm). apply length_map.
Qed.

(** X13: with a column other than upload and download selected, and a
    consistent collation, the rows come out ordered by [localeCompare] of
    the cells of that column, forwards when ascending and backwards when
    descending. *)
Theorem data_text_column_collated (col : Columns) (ascending : bool)
    (connections : list Connection.t) :
  consistent (localeCompare env) ->
  col <> Upload -> col <> Download ->
  exists rows,
    snd (data env {| column := Some col; asc := ascending |} connections) = Return rows
    /\ forall (i j : nat) (a b : TableRow.t),
         (i < j)%nat -> rows !! i = Some a -> rows !! j = Some b ->
         if ascending
         then localeCompare env (TableRow.get col a) (TableRow.get col b) <= 0
         else localeCompare env (TableRow.get col b) (TableRow.get col a) <= 0.
Proof.
  intros Hlc Hup Hdown. eexists. split; [apply data_rowOrder |].
  intros i j a b Hij Hi Hj.
  pose proof (StronglySorted_positions _ _
                (sortZ_sorted _ (map (toRow env) (sortZ (baseCompare env) connections))
                   (rowOrder_consistent {| column := Some col; asc := ascending |} Hlc))
                i j a b Hij Hi Hj) as Hle.
  unfold rowOrder in Hle. cbn [column asc] in Hle.
  rewrite decide_False in Hle by tauto.
  unfold textCompare in Hle. now destruct ascending.
Qed.

Lemma data_traffic_column_stable_any (col : Columns) (ascending : bool)
    (connections : list Connection.t) (k : Z) :
  col = Upload \/ col = Download ->
  exists rows base,
    snd (data env {| column := Some col; asc := ascending |} connections) = Return rows
    /\ snd (data env initialSort connections) = Return base
    /\ filter (fun r => decodedTraffic (TableRow.get col r) = k) rows
       = filter (fun r => decodedTraffic (TableRow.get col r) = k) base.
Proof.
  intros Hcol. do 2 eexists.
  split; [apply data_rowOrder |]. split; [apply data_rowOrder |].
  change (rowOrder env initialSort) with (fun _ _ : TableRow.t => 0).
  rewrite sortZ_constant_zero.
  apply sortZ_filter. intros x y Hx Hgt Hy.
  unfold rowOrder in Hgt. cbn [column asc] in Hgt.
  rewrite decide_True in Hgt by tauto.
  unfold trafficCompare in Hgt. destruct ascending; lia.
Qed.

(** X14: the sort on the upload or the download column is stable on top
    of the base order: the rows whose cell decodes to one and the same
    value stand in the order they have in the default view. *)
Theorem data_traffic_column_stable (ascending : bool)
    (connections : list Connection.t) (k : Z) :
  (exists rows base,
      snd (data env {| column := Some Upload; asc := ascending |} connections) = Return rows
      /\ snd (data env initialSort connections) = Return base
      /\ filter (fun r => decodedTraffic (TableRow.upload r) = k) rows
         = filter (fun r => decodedTraffic (TableRow.upload r) = k) base)
  /\ (exists rows base,
        snd (data env {| column := Some Download; asc := ascending |} connections)
        = Return rows
        /\ snd (data env initialSort connections) = Return base
        /\ filter (fun r => decodedTraffic (TableRow.download r) = k) rows
           = filter (fun r => decodedTraffic (TableRow.download r) = k) base).
Proof.
  split.
  - apply (data_traffic_column_stable_any Upload). now left.
  - apply (data_traffic_column_stable_any Download). now right.
Qed.

(** X15: with a consistent collation, running [data] again on the array
    it has sorted in place gives the same array and the same rows. *)
Theorem data_again (sort : TableSort) (connections : list Connection.t) :
  consistent (localeCompare env) ->
  data env sort (fst (data env sort connections)) = data env sort connections.
Proof.
  intros Hlc. unfold data. cbn [fst].
  rewrite (sortZ_sorted_fixed (baseCompare env) (sortZ (baseCompare env) connections))
    by apply sortZ_sorted, baseCompare_consistent, Hlc.
  reflexivity.
Qed.
End SecondSort.

Lemma data_text_column_collated_witness :
  exists rows,
    snd (data sampleImports {| column := Some Host; asc := false |} sampleConnections)
    = Return rows
    /\ forall (i j : nat) (a b : TableRow.t),
         (i < j)%nat -> rows !! i = Some a -> rows !! j = Some b ->
         localeCompare sampleImports (TableRow.get Host b) (TableRow.get Host a) <= 0.
Proof.
  apply (data_text_column_collated sampleImports Host false sampleConnections
           codeUnitCompare_consistent); discriminate.
Defined.

Lemma data_again_witness :
  data sampleImports initialSort (fst (data sampleImports initialSort sampleConnections))
  = data sampleImports initialSort sampleConnections.
Proof.
  apply (data_again sampleImports initialSort sampleConnections codeUnitCompare_consistent).
Defined.

Lemma decodedTraffic_formatTraffic (num : Z) :
  0 <= num < 2 ^ 42 ->
  parseTraffic (formatTraffic num) = Return (Num (decodedBytes num)).
Proof.
  intros Hnum. unfold decodedBytes.
  destruct (Z.ltb_spec num 1024) as [Hsmall | Hbig].
  - unfold formatTraffic. rewrite formatLoop_below_4TB by exact Hnum.
    unfold magnitude. destruct (Z.ltb_spec num 1024); [| lia].
    change ((if (0 =? 0)%nat then integerToString num
             else toFixed2 (num # unitSize 0))
              ++ " " ++ unitText (trafficUnit !! 0%nat))
      with (integerToString num ++ String " " "B").
    unfold parseTraffic.
    rewrite (split_app " " _ "B" (integerToString_notSpace num)).
    cbn [split]. rewrite parseInt_integerToString_exact. reflexivity.
  - assert (Hloop := formatLoop_below_4TB num Hnum).
    destruct (magnitude_range num ltac:(lia)) as [[Hk _] | [[Hk _] | [[Hk _] | [Hk _]]]];
      rewrite Hk in *;
      rewrite (formatTraffic_scaled _ _ _ Hloop);
      rewrite parseTraffic_toFixed2 by reflexivity;
      rewrite parseInt_toFixed2 by lia;
      rewrite indexOf_unitText by (cbn [length trafficUnit]; lia);
      rewrite scaleUp_Num by lia;
      do 3 f_equal.
Qed.

Lemma hundredths_mono (a b : Z) (d : positive) :
  0 <= a <= b -> hundredths a d / 100 <= hundredths b d / 100.
Proof.
  intros Hab. unfold hundredths.
  apply Z.div_le_mono; [lia |]. apply Z.div_le_mono; lia.
Qed.

(** The decoded value of a count in unit [k]: at least the unit, and at
    most the next unit. *)
Lemma decodedBytes_range (num : Z) (d : positive) :
  Zpos d <= num < 1024 * Zpos d ->
  Zpos d <= hundredths num d / 100 * Zpos d <= 1024 * Zpos d.
Proof.
  intros Hnum.
  pose proof (whole_units_bounds num d ltac:(lia)) as [Hlo Hhi].
  assert (1 <= num / Zpos d) by (apply Z.div_le_lower_bound; lia).
  assert (num / Zpos d < 1024) by (apply Z.div_lt_upper_bound; lia).
  split; nia.
Qed.

Lemma decodedBytes_mono (a b : Z) :
  0 <= a <= b -> b < 2 ^ 42 -> decodedBytes a <= decodedBytes b.
Proof.
  intros Hab Hb. unfold decodedBytes.
  destruct (Z.ltb_spec a 1024) as [Ha | Ha], (Z.ltb_spec b 1024) as [Hb' | Hb'];
    try lia.
  - destruct (magnitude_range b ltac:(lia)) as [[-> ?] | [[-> ?] | [[-> ?] | [-> ?]]]];
      match goal with
      | |- context [unitSize ?k] =>
          let v := eval vm_compute in (unitSize k) in change (unitSize k) with v
      end;
      match goal with
      | |- context [hundredths b ?d] =>
          pose proof (decodedBytes_range b d ltac:(lia)); lia
      end.
  - destruct (magnitude_range a ltac:(lia)) as [[-> ?] | [[-> ?] | [[-> ?] | [-> ?]]]],
             (magnitude_range b ltac:(lia)) as [[-> ?] | [[-> ?] | [[-> ?] | [-> ?]]]];
      try lia;
      repeat match goal with
             | |- context [unitSize ?k] =>
                 let v := eval vm_compute in (unitSize k) in change (unitSize k) with v
             end;
      first
        [ apply Z.mul_le_mono_nonneg_r; [lia | apply hundredths_mono; lia]
        | match goal with
          | |- hundredths a ?da / 100 * _ <= hundredths b ?db / 100 * _ =>
              pose proof (decodedBytes_range a da ltac:(lia));
              pose proof (decodedBytes_range b db ltac:(lia)); lia
          end ].
Qed.

(** X18: below 2^42 the value decoded from the formatted text grows with
    the byte count, so the numeric sort of a traffic column never puts a
    count with a larger decoded value first; counts may tie, they never
    swap. *)
Theorem parseTraffic_formatTraffic_monotone (a b : Z) :
  0 <= a <= b -> b < 2 ^ 42 ->
  exists x y,
    parseTraffic (formatTraffic a) = Return (Num x)
    /\ parseTraffic (formatTraffic b) = Return (Num y)
    /\ x <= y.
Proof.
  intros Hab Hb. exists (decodedBytes a), (decodedBytes b).
  split; [apply decodedTraffic_formatTraffic; lia |].
  split; [apply decodedTraffic_formatTraffic; lia |].
  now apply decodedBytes_mono.
Qed.

Lemma parseTraffic_formatTraffic_monotone_witness :
  exists x y,
    parseTraffic (formatTraffic 1300) = Return (Num x)
    /\ parseTraffic (formatTraffic 2000) = Return (Num y)
    /\ x <= y.
Proof. apply (parseTraffic_formatTraffic_monotone 1300 2000); lia. Defined.

(** ** The view does not depend on the order of the store's array *)

Lemma sorted_Permutation_unique {A : Type} (R : A -> A -> Prop) (l1 l2 : list A) :
  (forall a b, In a l1 -> In b l1 -> R a b -> R b a -> a = b) ->
  StronglySorted R l1 -> StronglySorted R l2 -> Permutation l1 l2 -> l1 = l2.
Proof.
  intros Hanti Hs1. revert l2.
  induction Hs1 as [| x l1 Hs1 IH Hall1]; intros l2 Hs2 Hperm.
  - now apply Permutation_nil in Hperm.
  - destruct Hs2 as [| y l2 Hs2 Hall2].
    { apply Permutation_sym, Permutation_nil in Hperm. discriminate. }
    assert (Hxy : x = y).
    { assert (Hx : In x (y :: l2))
        by (eapply Permutation_in; [exact Hperm | now left]).
      assert (Hy : In y (x :: l1))
        by (eapply Permutation_in; [apply Permutation_sym; exact Hperm | now left]).
      destruct Hx as [-> | Hx]; [reflexivity |].
      destruct Hy as [-> | Hy]; [reflexivity |].
      rewrite Forall_forall in Hall1, Hall2.
      apply Hanti; [now left | now right | |].
      - apply Hall1. now apply list_elem_of_In.
      - apply Hall2. now apply list_elem_of_In. }
    subst y. f_equal. apply IH.
    + intros a b Ha Hb. apply Hanti; now right.
    + exact Hs2.
    + eapply Permutation_cons_inv. exact Hperm.
Qed.

Section StoreOrder.
Variable env : Imports.

Lemma baseCompare_sorted (connections : list Connection.t) :
  consistent (localeCompare env) ->
  StronglySorted (fun a b => baseCompare env a b <= 0) (sortZ (baseCompare env) connections).
Proof. intros Hlc. apply sortZ_sorted, baseCompare_consistent, Hlc. Qed.

(** Two connections of one array with distinct ids are never tied in
    the base order. *)
Lemma baseCompare_antisymmetric (connections : list Connection.t) (a b : Connection.t) :
  (forall x y, localeCompare env x y <= 0 -> localeCompare env y x <= 0 -> x = y) ->
  NoDup (map Connection.id connections) ->
  In a connections -> In b connections ->
  baseCompare env a b <= 0 -> baseCompare env b a <= 0 -> a = b.
Proof.
  intros Hanti Hnd Ha Hb Hab Hba.
  assert (Hid : Connection.id a = Connection.id b).
  { apply baseCompare_baseOrder in Hab, Hba. unfold baseOrder in Hab, Hba.
    destruct Hab as [[? ?] | [? [? | [? ?]]]], Hba as [[? ?] | [? [? | [? ?]]]];
      try congruence; try lia.
    now apply Hanti. }
  apply list_elem_of_In in Ha, Hb.
  apply list_elem_of_lookup in Ha as [i Hi], Hb as [j Hj].
  assert (i = j).
  { eapply NoDup_lookup; [exact Hnd | |].
    - rewrite list_lookup_fmap, Hi. reflexivity.
    - rewrite list_lookup_fmap, Hj. cbn. now rewrite Hid. }
  subst j. congruence.
Qed.

(** X19: with ids that are distinct and a collation that orders them
    strictly, the array after the first sort and the rows of [data] are
    the same for any two orders in which the store may list the same
    connections, whatever the sort state. *)
Theorem data_store_order_irrelevant (sort : TableSort)
    (connections connections' : list Connection.t) :
  consistent (localeCompare env) ->
  (forall x y, localeCompare env x y <= 0 -> localeCompare env y x <= 0 -> x = y) ->
  NoDup (map Connection.id connections) ->
  Permutation connections connections' ->
  data env sort connections = data env sort connections'.
Proof.
  intros Hlc Hanti Hnd Hperm.
  assert (Hsame : sortZ (baseCompare env) connections
                  = sortZ (baseCompare env) connections').
  { apply (sorted_Permutation_unique (fun a b => baseCompare env a b <= 0)).
    - intros a b Ha Hb. apply (baseCompare_antisymmetric connections); try assumption.
      + eapply Permutation_in; [apply sortZ_Permutation | exact Ha].
      + eapply Permutation_in; [apply sortZ_Permutation | exact Hb].
    - now apply baseCompare_sorted.
    - now apply baseCompare_sorted.
    - rewrite !sortZ_Permutation. exact Hperm. }
  unfold data. now rewrite Hsame.
Qed.
End StoreOrder.

Lemma codeUnitCompare_antisymmetric (x y : string) :
  codeUnitCompare x y <= 0 -> codeUnitCompare y x <= 0 -> x = y.
Proof.
  unfold codeUnitCompare. rewrite (String.compare_antisym x y).
  destruct (String.compare y x) eqn:E; cbn; try lia.
  intros _ _. symmetry. now apply String.compare_eq_iff.
Qed.

Lemma data_store_order_irrelevant_witness :
  data sampleImports {| column := Some Upload; asc := true |} sampleConnections
  = data sampleImports {| column := Some Upload; asc := true |} (rev sampleConnections).
Proof.
  apply (data_store_order_irrelevant sampleImports _ sampleConnections (rev sampleConnections)
           codeUnitCompare_consistent codeUnitCompare_antisymmetric).
  - refine (bool_decide_unpack _ _). vm_compute. exact I.
  - apply Permutation_rev.
Defined.
